(** * The complete simplex tableau method (Bierlaire, Algorithm 16.5)

    Shallow embedding of the notebook functions [simplexTableau], [pivoting],
    [simplexAlgorithmTableau], [getRow] and [simplex] (src/p16200.ipynb), of
    [pivoting] in src/unnamed/part_002 (the same code) and of the entering
    column choice of the basis-form [simplex] in src/unnamed/part_001.

    The arithmetic is abstracted by the class [Num]; it has two instances:
    exact rationals [Q] (each result kept in lowest terms by [Qred]) and
    IEEE-754 binary64 numbers, Rocq's primitive floats, which are numpy's
    float64.  A numpy 2-D array is a list of rows; [tableau[-1]] is the last
    row and [tableau[:, -1]] the last column.  [while True] loops run on a
    fuel argument; running out of fuel ([ErrFuel]) stands for a loop that
    does not stop. *)

From Stdlib Require Import List Bool Arith Lia ZArith QArith Qreduction Qabs.
From Stdlib Require Import Floats Lqa.
Import ListNotations.

(** ** Numbers *)

Class Num (R : Type) := {
  nzero : R;
  none : R;
  nadd : R -> R -> R;
  nsub : R -> R -> R;
  nmul : R -> R -> R;
  ndiv : R -> R -> R;
  nopp : R -> R;
  nabs : R -> R;
  nltb : R -> R -> bool;       (* x < y *)
  nleb : R -> R -> bool;       (* x <= y *)
  nlt_inf : R -> bool;         (* x < np.inf *)
  nis_inf : R -> bool;         (* x == np.inf *)
  nis_nan : R -> bool;         (* np.isnan(x) *)
  neps : R;                    (* np.finfo(float).eps = 2^-52 *)
  nsqrteps : R                 (* np.sqrt(np.finfo(float).eps) = 2^-26 *)
}.

#[export] Instance NumQ : Num Q := {
  nzero := 0;
  none := 1;
  nadd x y := Qred (x + y);
  nsub x y := Qred (x - y);
  nmul x y := Qred (x * y);
  ndiv x y := Qred (x / y);
  nopp x := Qred (- x);
  nabs x := Qred (Qabs x);
  nltb x y := negb (Qle_bool y x);
  nleb x y := Qle_bool x y;
  nlt_inf _ := true;
  nis_inf _ := false;
  nis_nan _ := false;
  neps := Qmake 1 (2 ^ 52);
  nsqrteps := Qmake 1 (2 ^ 26)
}.

#[export] Instance NumFloat : Num float := {
  nzero := 0%float;
  none := 1%float;
  nadd := PrimFloat.add;
  nsub := PrimFloat.sub;
  nmul := PrimFloat.mul;
  ndiv := PrimFloat.div;
  nopp := PrimFloat.opp;
  nabs := PrimFloat.abs;
  nltb := PrimFloat.ltb;
  nleb := PrimFloat.leb;
  nlt_inf x := PrimFloat.ltb x PrimFloat.infinity;
  nis_inf x := PrimFloat.eqb x PrimFloat.infinity;
  nis_nan := PrimFloat.is_nan;
  neps := 0x1p-52%float;
  nsqrteps := PrimFloat.sqrt (0x1p-52%float)
}.

(** ** Errors: the exceptions the functions raise *)

Inductive error :=
  | ErrPivotRow          (* pivoting: row of the pivot out of range *)
  | ErrPivotCol          (* pivoting: column of the pivot out of range *)
  | ErrPivotSmall        (* pivoting: the pivot is too close to zero *)
  | ErrIndex             (* getRow: variable index out of range; IndexError *)
  | ErrArgminEmpty       (* np.argmin of an empty sequence: ValueError *)
  | ErrSizes             (* simplex: incompatible sizes *)
  | ErrFuel.             (* the [while] loop has not stopped *)

Inductive res (A : Type) :=
  | Ok : A -> res A
  | Err : error -> res A.
Arguments Ok {A} _.
Arguments Err {A} _.

Definition bind {A B} (r : res A) (f : A -> res B) : res B :=
  match r with Ok a => f a | Err e => Err e end.

Notation "x <- r ;; f" := (bind r (fun x => f))
  (at level 61, r at next level, right associativity).

Section Simplex.

Local Open Scope nat_scope.

Context {R : Type} `{Num R}.

Definition row := list R.
Definition tab := list row.

(** [tableau[i][j]] *)
Definition get (T : tab) (i j : nat) : R := nth j (@nth (list R) i T []) nzero.

(** [tableau.shape] is [(nrows T, ncols T)]. *)
Definition nrows (T : tab) : nat := length T.
Definition ncols (T : tab) : nat := length (hd [] T).

Definition lastv (r : row) : R := last r nzero.
Definition butlast (r : row) : row := removelast r.

Fixpoint mapi_from {A B} (f : nat -> A -> B) (i : nat) (l : list A) : list B :=
  match l with [] => [] | x :: l' => f i x :: mapi_from f (S i) l' end.
Definition mapi {A B} (f : nat -> A -> B) := mapi_from f 0.

(** Elementwise operation on two rows of the same length. *)
Fixpoint map2 {A B C} (f : A -> B -> C) (l1 : list A) (l2 : list B) : list C :=
  match l1, l2 with
  | x :: l1', y :: l2' => f x y :: map2 f l1' l2'
  | _, _ => []
  end.

(** [np.argmax] of a boolean array: the first [True], 0 when there is none. *)
Fixpoint argmax_bool (l : list bool) : nat :=
  match l with
  | [] => 0
  | true :: _ => 0
  | false :: l' => S (argmax_bool l')
  end.

(** An entry of [steps]: a quotient, or the [np.inf] of a row that is excluded. *)
Inductive ext := XFin (x : R) | XInf.

Definition ext_lt (a b : ext) : bool :=
  match a, b with
  | XFin x, XFin y => nltb x y
  | XFin x, XInf => nlt_inf x
  | XInf, _ => false
  end.

Definition ext_nan (a : ext) : bool :=
  match a with XFin x => nis_nan x | XInf => false end.

Definition ext_is_inf (a : ext) : bool :=
  match a with XFin x => nis_inf x | XInf => true end.

(** [np.argmin]: the index of the first minimum, the first NaN if there is
    one; [ValueError] on an empty array. *)
Fixpoint argmin_from (i mi : nat) (mp : ext) (l : list ext) : nat :=
  match l with
  | [] => mi
  | x :: l' =>
      if ext_nan x then i
      else if ext_lt x mp then argmin_from (S i) i x l'
      else argmin_from (S i) mi mp l'
  end.

Definition argmin (l : list ext) : res nat :=
  match l with
  | [] => Err ErrArgminEmpty
  | x :: l' => if ext_nan x then Ok 0 else Ok (argmin_from 1 0 x l')
  end.

(** *** [simplexTableau] *)

Inductive select :=
  | SelOptimal                  (* None, None, True, True *)
  | SelUnbounded                (* None, None, False, False *)
  | SelPivot (p q : nat).       (* p, q, False, True *)

Definition simplexTableau (T : tab) : res select :=
  let m := nrows T - 1 in
  let reducedCost := butlast (last T []) in
  let negativeReducedCost := map (fun x => nltb x nzero) reducedCost in
  if negb (existsb id negativeReducedCost) then Ok SelOptimal
  else
    let p := argmax_bool negativeReducedCost in
    let xb := map lastv (firstn m T) in
    let minusd := map (fun r => nth p r nzero) (firstn m T) in
    let steps := map (fun k => if nltb nzero (nth k minusd nzero)
                               then XFin (ndiv (nth k xb nzero) (nth k minusd nzero))
                               else XInf) (seq 0 m) in
    q <- argmin steps ;;
    let step := nth q steps XInf in
    if ext_is_inf step then Ok SelUnbounded else Ok (SelPivot p q).

(** *** [pivoting] *)

Definition pivoting (T : tab) (p q : nat) : res tab :=
  let m := nrows T in
  let n := ncols T in
  if m <=? q then Err ErrPivotRow
  else if n <=? p then Err ErrPivotCol
  else
    let thepivot := get T q p in
    if nltb (nabs thepivot) neps then Err ErrPivotSmall
    else
      let thepivotrow := nth q T [] in
      Ok (mapi (fun i r =>
                  if i =? q then map (fun x => ndiv x thepivot) r
                  else map2 (fun x y => nsub x (ndiv (nmul (nth p r nzero) y) thepivot))
                            r thepivotrow) T).

(** *** [simplexAlgorithmTableau]: returns [(tableau, optimal, unbounded)] *)

Fixpoint simplexAlgorithmTableau (fuel : nat) (T : tab) : res (tab * bool * bool) :=
  match fuel with
  | O => Err ErrFuel
  | S f =>
      s <- simplexTableau T ;;
      match s with
      | SelOptimal => Ok (T, true, false)
      | SelUnbounded => Ok (T, false, true)
      | SelPivot p q => T' <- pivoting T p q ;; simplexAlgorithmTableau f T'
      end
  end.

(** *** [getRow] *)

Fixpoint getRow_scan (column : list R) (j : nat) (rowIndex : option nat) : option nat :=
  match column with
  | [] => rowIndex
  | x :: column' =>
      if nltb nsqrteps (nabs x) then
        match rowIndex with
        | None =>
            if nleb (nabs (nsub x none)) neps
            then getRow_scan column' (S j) (Some j)
            else None
        | Some _ => None
        end
      else getRow_scan column' (S j) rowIndex
  end.

Definition getRow (T : tab) (index : nat) : res (option nat) :=
  let n := ncols T - 1 in
  if n <=? index then Err ErrIndex
  else Ok (getRow_scan (map (fun r => nth index r nzero) T) 0 None).

(** *** Helpers of [simplex] *)

Fixpoint mapM {A B} (f : A -> res B) (l : list A) : res (list B) :=
  match l with
  | [] => Ok []
  | x :: l' => y <- f x ;; ys <- mapM f l' ;; Ok (y :: ys)
  end.

(** [np.array([getRow(tableau, k) for k in range(cnt)])] *)
Definition basicRowsOf (T : tab) (cnt : nat) : res (list (option nat)) :=
  mapM (getRow T) (seq 0 cnt).

(** [np.where(f(basicRows))[0]], in increasing order *)
Definition where_idx (f : option nat -> bool) (l : list (option nat)) : list nat :=
  filter (fun k => f (nth k l None)) (seq 0 (length l)).

Definition set_nth {A} (l : list A) (i : nat) (v : A) : list A :=
  mapi (fun j x => if j =? i then v else x) l.

Definition set_entry (T : tab) (i j : nat) (v : R) : tab :=
  set_nth T i (set_nth (nth i T []) j v).

(** [np.sum]; a left-to-right sum (the order of numpy's pairwise summation
    only matters for rounding). *)
Definition npsum (l : list R) : R := fold_left nadd l nzero.

(** [np.delete(tableau, rows, 0)]; an index out of bounds is an IndexError. *)
Definition delete_rows (T : tab) (rows : list nat) : res tab :=
  if existsb (fun i => length T <=? i) rows then Err ErrIndex
  else Ok (map snd (filter (fun ir => negb (existsb (Nat.eqb (fst ir)) rows))
                           (combine (seq 0 (length T)) T))).

(** [np.delete(tableau, range(lo, hi), 1)] *)
Definition delete_cols (T : tab) (lo hi : nat) : tab :=
  map (fun r => firstn lo r ++ skipn hi r) T.

(** Sign normalisation: [A[i, :] = -A[i, :]; b[i] = -b[i]] for [b[i] < 0]. *)
Definition normalize (A : tab) (b : row) : tab * row :=
  (map2 (fun r bi => if nltb bi nzero then map nopp r else r) A b,
   map (fun bi => if nltb bi nzero then nopp bi else bi) b).

(** The first tableau of the auxiliary problem. *)
Definition phaseOneTableau0 (m n : nat) (A : tab) (b : row) : tab :=
  mapi (fun i r => r ++ map (fun j => if j =? i then none else nzero) (seq 0 m)
                     ++ [nth i b nzero]) A
  ++ [map (fun k => nopp (npsum (map (fun r => nth k r nzero) A))) (seq 0 n)
      ++ repeat nzero m ++ [nopp (npsum b)]].

(** The [while not clean] loop removing the auxiliary variables from the
    basis.  [tobeCleaned.pop()] on a set of small integers yields its least
    element; [set(range(n)) - set(basicIndices)] is listed in increasing
    order. *)
Fixpoint cleanup (fuel m n : nat) (T : tab) (rowsToRemove : list nat)
    (basicRows : list (option nat)) : res (tab * list nat) :=
  match fuel with
  | O => Err ErrFuel
  | S f =>
      let basicIndices := where_idx (fun o => if o then true else false) basicRows in
      let tobeCleaned := filter (fun k => (n <=? k) && (k <? n + m)) basicIndices in
      match tobeCleaned with
      | [] => Ok (T, rowsToRemove)
      | auxiliaryColumn :: _ =>
          match nth auxiliaryColumn basicRows None with
          | None => Err ErrIndex
          | Some rowpivotIndex =>
              let rowpivot := nth rowpivotIndex T [] in
              let originalNonbasic :=
                filter (fun k => negb (existsb (Nat.eqb k) basicIndices)) (seq 0 n) in
              let nonzerosPivots :=
                map (fun k => nltb neps (nabs (nth k rowpivot nzero))) originalNonbasic in
              if existsb id nonzerosPivots then
                let colpivot := nth (argmax_bool nonzerosPivots) originalNonbasic 0 in
                T' <- pivoting T colpivot rowpivotIndex ;;
                cleanup f m n T' rowsToRemove
                  (set_nth (set_nth basicRows colpivot (Some rowpivotIndex))
                           auxiliaryColumn None)
              else
                let rowsToRemove' := rowsToRemove ++ [rowpivotIndex] in
                T' <- delete_rows T rowsToRemove' ;;
                br <- basicRowsOf T' (m + n) ;;
                cleanup f m n T' rowsToRemove' br
          end
      end
  end.

(** The last row of the phase II tableau, from the costs [c]. *)
Definition phaseTwoLastRow (c : row) (T : tab) (basicRows : list (option nat)) : tab :=
  let last_i := nrows T - 1 in
  let rhs := ncols T - 1 in
  let basicIndices := where_idx (fun o => if o then true else false) basicRows in
  let nonbasicIndices := where_idx (fun o => if o then false else true) basicRows in
  let rowOf j := match nth j basicRows None with Some r => r | None => 0 end in
  let T1 := fold_left
              (fun T k => set_entry T last_i k
                 (nsub (nth k c nzero)
                    (npsum (map (fun j => nmul (nth j c nzero) (get T (rowOf j) k))
                                basicIndices))))
              nonbasicIndices T in
  set_entry T1 last_i rhs
    (nopp (npsum (map (fun j => nmul (nth j c nzero) (get T1 (rowOf j) rhs)) basicIndices))).

(** [simplex] after the size checks and the sign normalisation:
    returns [(tableau, unbounded, infeasible)]. *)
Definition simplex_core (fuel m n : nat) (A : tab) (b c : row) : res (tab * bool * bool) :=
  let tableau := phaseOneTableau0 m n A b in
  r1 <- simplexAlgorithmTableau fuel tableau ;;
  let '(phaseOneTableau, optimal, unbounded) := r1 in
  if unbounded then Ok (tableau, true, false)
  else if nltb (lastv (last phaseOneTableau [])) (nopp nsqrteps)
  then Ok (phaseOneTableau, false, true)
  else
    br <- basicRowsOf phaseOneTableau (m + n) ;;
    c1 <- cleanup fuel m n phaseOneTableau [] br ;;
    let '(phaseOneTableau', rowsToRemove) := c1 in
    let startPhaseTwo := delete_cols phaseOneTableau' n (n + m) in
    br2 <- basicRowsOf startPhaseTwo n ;;
    let startPhaseTwo' := phaseTwoLastRow c startPhaseTwo br2 in
    r2 <- simplexAlgorithmTableau fuel startPhaseTwo' ;;
    let '(phaseTwoTableau, optimal2, unbounded2) := r2 in
    Ok (phaseTwoTableau, unbounded2, false).

(** The caller's arrays: [A] (with its column count [A.shape[1]]), [b], [c]. *)
Record lp := mkLP { lpA : tab; lpn : nat; lpb : row; lpc : row }.

(** [simplex(A, b, c)]: the result, and the caller's arrays after the call
    (the sign normalisation writes into [A] and [b]). *)
Definition simplex (fuel : nat) (P : lp) : res (tab * bool * bool) * lp :=
  let m := length (lpA P) in
  let n := lpn P in
  if negb (length (lpb P) =? m) then (Err ErrSizes, P)
  else if negb (length (lpc P) =? n) then (Err ErrSizes, P)
  else
    let '(A, b) := normalize (lpA P) (lpb P) in
    (simplex_core fuel m n A b (lpc P), mkLP A n b (lpc P)).

(** The optimal solution and value read from a final tableau, as
    [printResults] does. *)
Definition solution (T : tab) : res (list R) :=
  let n := ncols T - 1 in
  br <- basicRowsOf T n ;;
  Ok (map (fun o => match o with Some r => lastv (nth r T []) | None => nzero end) br).

Definition optimal_value (T : tab) : R := nopp (lastv (last T [])).

(** The entering column of the basis-form [simplex] (src/unnamed/part_001,
    [p = np.argmax(negativeReducedCost)]); [None] when no reduced cost is
    negative and the basis is optimal. *)
Definition basisEntering (reducedCost : row) : option nat :=
  let negativeReducedCost := map (fun x => nltb x nzero) reducedCost in
  if negb (existsb id negativeReducedCost) then None
  else Some (argmax_bool negativeReducedCost).

(** The column chosen by Dantzig's rule as the spec words it: the first
    column attaining the most negative reduced cost (used only to compare
    with the code's choice). *)
Fixpoint dantzig_from (i best : nat) (bv : R) (l : row) : nat :=
  match l with
  | [] => best
  | x :: l' => if nltb x bv then dantzig_from (S i) i x l' else dantzig_from (S i) best bv l'
  end.
Definition dantzigColumn (reducedCost : row) : nat := dantzig_from 0 0 nzero reducedCost.

(** [p] is the first index of a negative entry of [l]. *)
Definition first_negative (l : row) (p : nat) : Prop :=
  p < length l /\ nltb (nth p l nzero) nzero = true /\
  (forall j, j < p -> nltb (nth j l nzero) nzero = false).

(** Every row has as many entries as the first one, as in a 2-D numpy
    array. *)
Definition rect (T : tab) : Prop := forall r, In r T -> length r = ncols T.

(** What [printResults] reports for an OPTIMAL outcome: the objective
    value and the solution vector; [None] for any other outcome. *)
Definition optimal_report (fuel : nat) (P : lp) : option (R * res (list R)) :=
  match fst (simplex fuel P) with
  | Ok (T, false, false) => Some (optimal_value T, solution T)
  | _ => None
  end.

End Simplex.

(** Every entry is in lowest terms, as [Qred] leaves it. *)
Definition qnormal (r : list Q) : Prop := forall x, In x r -> Qred x = x.

(** The right-hand side of every constraint row is nonnegative: the basic
    solution the tableau stands for is feasible. *)
Definition feasible (T : @tab Q) : Prop :=
  forall k, (k < nrows T - 1)%nat -> (0 <= lastv (nth k T []))%Q.

(** [r[:-1] . x]: the left-hand side of the row [r] read as a linear
    equation in the variables [x]. *)
Fixpoint dot (r x : list Q) : Q :=
  match r, x with
  | a :: r', y :: x' => (a * y + dot r' x')%Q
  | _, _ => 0%Q
  end.

(** [x] satisfies the equation [r[:-1] . x = r[-1]] of a row, and of
    every row of a tableau. *)
Definition row_holds (x r : list Q) : Prop := (dot (butlast r) x == lastv r)%Q.
Definition solves (T : @tab Q) (x : list Q) : Prop := forall r, In r T -> row_holds x r.

(** ** Concrete inputs *)

(** A tableau whose reduced costs are [-1] and [-5]. *)
Definition tab_two_negative : list (list Q) := [[1;1;1];[-1;-5;0]]%Q.

(** A rectangular tableau with pivot [3] at position [(0, 0)]. *)
Definition tab_three : list (list Q) := [[3;1];[1#10;0]]%Q.

(** [A = [[0]]], [b = [1]], [c = [0]]: the constraint [0 * x = 1] has no
    solution; [phase1_no_solution] is the phase I tableau it stops with. *)
Definition lp_no_solution : @lp Q := mkLP [[0]]%Q 1 [1]%Q [0]%Q.
Definition phase1_no_solution : list (list Q) := [[0;1;1];[0;0;-1]]%Q.

(** [A = [[1]]], [b = [-1]], [c = [0]]: a row the sign normalisation flips. *)
Definition lp_negative_b : @lp Q := mkLP [[1]]%Q 1 [-1]%Q [0]%Q.

(** [min x0 + x1] subject to [x0 + x1 = 2] (written twice) and [x0 - x1 = 0],
    [x >= 0]: optimal at [(1, 1)] with value [2]; [lp_redundant_dup] repeats
    the last row once more. *)
Definition lp_redundant : @lp Q := mkLP [[1;1];[1;1];[1;-1]]%Q 2 [2;2;0]%Q [1;1]%Q.
Definition lp_redundant_dup : @lp Q :=
  mkLP [[1;1];[1;1];[1;-1];[1;-1]]%Q 2 [2;2;0;0]%Q [1;1]%Q.

(** [min -x] subject to [0 * x = 0], [x >= 0]: unbounded, and its only
    constraint is redundant. *)
Definition lp_unbounded_redundant : @lp Q := mkLP [[0]]%Q 1 [0]%Q [-1]%Q.

(** The float64 tableau [[3, 1], [0.1, 0]], [0.1] being the double nearest
    to it. *)
Definition tab_tenth : list (list float) := [[3;1];[0x1.999999999999ap-4;0]]%float.

(** [tab_three] after the pivot at [(0, 0)]. *)
Definition tab_three_pivoted : list (list Q) := [[1; 1#3]; [0; -(1#30)]]%Q.

(** [tab_two_negative] after its two pivots: optimal. *)
Definition tab_two_negative_final : list (list Q) := [[1;1;1];[4;0;5]]%Q.

(** A tableau whose ratio test picks the pivot [10^-20], below [eps]. *)
Definition tab_tiny_pivot : list (list Q) := [[1 # 100000000000000000000; 1]; [-1; 0]]%Q.

(** A tableau whose entering column [0] has no positive entry. *)
Definition tab_unbounded : list (list Q) := [[-1; 1]; [-1; 0]]%Q.

(** [A = [[nan]]], [b = [1]], [c = [0]] in float64. *)
Definition lp_nan : @lp float := mkLP [[PrimFloat.nan]] 1 [1]%float [0]%float.


(** ** List lemmas *)

Section ListFacts.

Context {A B C : Type}.
Local Open Scope nat_scope.

Lemma length_mapi_from (f : nat -> A -> B) k l : length (mapi_from f k l) = length l.
Proof. revert k; induction l; simpl; auto. Qed.

Lemma length_mapi (f : nat -> A -> B) l : length (mapi f l) = length l.
Proof. apply length_mapi_from. Qed.

Lemma nth_mapi_from (f : nat -> A -> B) k l i d d' :
  i < length l -> nth i (mapi_from f k l) d' = f (k + i) (nth i l d).
Proof.
  revert k i; induction l as [|x l IH]; intros k [|i] Hi; simpl in *; try lia.
  - f_equal. lia.
  - rewrite IH by lia. f_equal. lia.
Qed.

Lemma nth_mapi (f : nat -> A -> B) l i d d' :
  i < length l -> nth i (mapi f l) d' = f i (nth i l d).
Proof. intros Hi. unfold mapi. rewrite (nth_mapi_from _ _ _ _ d) by exact Hi. reflexivity. Qed.

Lemma mapi_from_id (f : nat -> A -> A) k l :
  (forall i x, i < length l -> nth_error l i = Some x -> f (k + i) x = x) ->
  mapi_from f k l = l.
Proof.
  revert k; induction l as [|x l IH]; intros k Hf; simpl; [reflexivity|].
  f_equal.
  - rewrite <- (Nat.add_0_r k). apply Hf; simpl; [lia|reflexivity].
  - apply IH. intros i y Hi Hy. specialize (Hf (S i) y).
    rewrite Nat.add_succ_r in Hf. apply Hf; simpl; [lia|exact Hy].
Qed.

Lemma length_map2 (f : A -> B -> C) l1 l2 :
  length (map2 f l1 l2) = Nat.min (length l1) (length l2).
Proof. revert l2; induction l1; intros [|y l2]; simpl; auto. Qed.

Lemma nth_map2 (f : A -> B -> C) l1 l2 k d1 d2 d :
  k < length l1 -> k < length l2 ->
  nth k (map2 f l1 l2) d = f (nth k l1 d1) (nth k l2 d2).
Proof.
  revert l2 k; induction l1 as [|x l1 IH]; intros [|y l2] [|k] H1 H2; simpl in *;
    try lia; auto.
  apply IH; lia.
Qed.

Lemma map2_map_r (f : A -> B -> C) (g : B -> B) l1 l2 :
  map2 f l1 (map g l2) = map2 (fun x y => f x (g y)) l1 l2.
Proof. revert l2; induction l1; intros [|y l2]; simpl; f_equal; auto. Qed.

Lemma map2_ext (f g : A -> B -> C) l1 l2 :
  (forall x y, f x y = g x y) -> map2 f l1 l2 = map2 g l1 l2.
Proof. intros Hfg. revert l2; induction l1; intros [|y l2]; simpl; f_equal; auto. Qed.

Lemma in_map2 (f : A -> B -> C) l1 l2 z :
  In z (map2 f l1 l2) -> exists x y, z = f x y.
Proof.
  revert l2; induction l1 as [|x l1 IH]; intros [|y l2] Hz; simpl in Hz; try contradiction.
  destruct Hz as [<-|Hz]; eauto.
Qed.

Lemma map2_fst (f : A -> B -> A) l1 l2 :
  length l1 <= length l2 -> (forall x y, In x l1 -> f x y = x) -> map2 f l1 l2 = l1.
Proof.
  revert l2; induction l1 as [|x l1 IH]; intros [|y l2] Hl Hf; simpl in *; try lia; auto.
  f_equal; auto. apply IH; [lia|auto].
Qed.

Lemma in_mapi_from (f : nat -> A -> B) k l y :
  In y (mapi_from f k l) -> exists i x, In x l /\ y = f i x.
Proof.
  revert k; induction l as [|x l IH]; intros k Hy; simpl in Hy; [contradiction|].
  destruct Hy as [Hy|Hy].
  - exists k, x. split; [left; reflexivity | symmetry; exact Hy].
  - destruct (IH _ Hy) as (i & x' & Hx' & Hyx). exists i, x'. split; [right; exact Hx' | exact Hyx].
Qed.

End ListFacts.

(** ** Properties shared by every number type *)

Section Facts.

Context {R : Type} `{Num R}.
Local Open Scope nat_scope.

Lemma bind_ok {A B} (r : res A) (f : A -> res B) (b : B) :
  bind r f = Ok b -> exists a, r = Ok a /\ f a = Ok b.
Proof. destruct r as [a|e]; simpl; [eauto|discriminate]. Qed.

Lemma argmax_bool_first (l : list bool) :
  existsb id l = true ->
  argmax_bool l < length l /\ nth (argmax_bool l) l false = true /\
  (forall j, j < argmax_bool l -> nth j l false = false).
Proof.
  induction l as [|[|] l IH]; simpl; intros Hl; try discriminate.
  - split; [lia|split; [reflexivity|intros j Hj; lia]].
  - destruct (IH Hl) as (H1 & H2 & H3).
    split; [lia|split; [exact H2|]].
    intros [|j] Hj; simpl; [reflexivity|apply H3; lia].
Qed.

Lemma nth_mask (l : row) (k : nat) :
  k < length l ->
  nth k (map (fun x => nltb x nzero) l) false = nltb (nth k l nzero) nzero.
Proof.
  intros Hk.
  rewrite (nth_indep _ false (nltb nzero nzero)) by (rewrite length_map; exact Hk).
  apply (map_nth (fun x => nltb x nzero)).
Qed.

(** The first [True] of the mask [l < 0] is the first negative entry. *)
Lemma mask_first_negative (l : row) :
  existsb id (map (fun x => nltb x nzero) l) = true ->
  first_negative l (argmax_bool (map (fun x => nltb x nzero) l)).
Proof.
  intros Hex.
  destruct (argmax_bool_first _ Hex) as (H1 & H2 & H3).
  rewrite length_map in H1.
  split; [exact H1|split].
  - rewrite <- nth_mask by exact H1. exact H2.
  - intros j Hj. rewrite <- nth_mask by lia. apply H3. exact Hj.
Qed.

Lemma pivoting_ok_or_small (T : tab) (p q : nat) :
  q < nrows T -> p < ncols T ->
  pivoting T p q =
    if nltb (nabs (get T q p)) neps then Err ErrPivotSmall
    else Ok (mapi (fun i r =>
                 if i =? q then map (fun x => ndiv x (get T q p)) r
                 else map2 (fun x y => nsub x (ndiv (nmul (nth p r nzero) y) (get T q p)))
                           r (nth q T [])) T).
Proof.
  intros Hq Hp. unfold pivoting.
  destruct (Nat.leb_spec (nrows T) q); [lia|].
  destruct (Nat.leb_spec (ncols T) p); [lia|].
  reflexivity.
Qed.

(** Only the size checks of [simplex] raise the size error. *)

Lemma bind_not_sizes {A B} (r : res A) (f : A -> res B) :
  r <> Err ErrSizes -> (forall a, f a <> Err ErrSizes) -> bind r f <> Err ErrSizes.
Proof.
  destruct r as [a|e]; simpl; intros H1 H2; [apply H2|].
  intros Heq. apply H1. injection Heq as ->. reflexivity.
Qed.

Lemma pivoting_not_sizes T p q : pivoting T p q <> Err ErrSizes.
Proof.
  unfold pivoting.
  destruct (nrows T <=? q); [discriminate|].
  destruct (ncols T <=? p); [discriminate|].
  destruct (nltb _ neps); discriminate.
Qed.

Lemma argmin_not_sizes l : argmin l <> Err ErrSizes.
Proof. destruct l as [|x l]; simpl; [|destruct (ext_nan x)]; discriminate. Qed.

Lemma simplexTableau_not_sizes T : simplexTableau T <> Err ErrSizes.
Proof.
  unfold simplexTableau.
  destruct (negb _); [discriminate|].
  apply bind_not_sizes; [apply argmin_not_sizes|].
  intros q. destruct (ext_is_inf _); discriminate.
Qed.

Lemma simplexAlgorithmTableau_not_sizes fuel T :
  simplexAlgorithmTableau fuel T <> Err ErrSizes.
Proof.
  revert T; induction fuel as [|fuel IH]; intros T; simpl; [discriminate|].
  apply bind_not_sizes; [apply simplexTableau_not_sizes|].
  intros [| |p q]; try discriminate.
  apply bind_not_sizes; [apply pivoting_not_sizes|exact IH].
Qed.

Lemma basicRowsOf_not_sizes T cnt : basicRowsOf T cnt <> Err ErrSizes.
Proof.
  unfold basicRowsOf. generalize (seq 0 cnt) as l.
  induction l as [|k l IH]; simpl; [discriminate|].
  apply bind_not_sizes.
  - unfold getRow. destruct (_ <=? k); discriminate.
  - intros o. apply bind_not_sizes; [exact IH|discriminate].
Qed.

Lemma delete_rows_not_sizes (T : list (list R)) rows : delete_rows T rows <> Err ErrSizes.
Proof. unfold delete_rows. destruct (existsb _ _); discriminate. Qed.

Lemma cleanup_not_sizes fuel m n T rr br : cleanup fuel m n T rr br <> Err ErrSizes.
Proof.
  revert T rr br; induction fuel as [|fuel IH]; intros T rr br; simpl; [discriminate|].
  destruct (filter _ _) as [|aux rest]; [discriminate|].
  destruct (nth aux br None) as [r|]; [|discriminate].
  destruct (existsb id _).
  - apply bind_not_sizes; [apply pivoting_not_sizes|intros; apply IH].
  - apply bind_not_sizes; [apply delete_rows_not_sizes|intros T'].
    apply bind_not_sizes; [apply basicRowsOf_not_sizes|intros; apply IH].
Qed.

Lemma simplex_core_not_sizes fuel m n A b c : simplex_core fuel m n A b c <> Err ErrSizes.
Proof.
  unfold simplex_core.
  apply bind_not_sizes; [apply simplexAlgorithmTableau_not_sizes|].
  intros [[T1 o1] u1].
  destruct u1; [discriminate|].
  destruct (nltb _ _); [discriminate|].
  apply bind_not_sizes; [apply basicRowsOf_not_sizes|intros br].
  apply bind_not_sizes; [apply cleanup_not_sizes|intros [T2 rr]].
  apply bind_not_sizes; [apply basicRowsOf_not_sizes|intros br2].
  apply bind_not_sizes; [apply simplexAlgorithmTableau_not_sizes|].
  intros [[T3 o3] u3]. discriminate.
Qed.

(** The flags returned after phase I and phase II. *)
Lemma simplex_core_flags fuel m n A b c T u i :
  simplex_core fuel m n A b c = Ok (T, u, i) -> u = false \/ i = false.
Proof.
  unfold simplex_core. intros Hc.
  apply bind_ok in Hc as ([[T1 o1] u1] & _ & Hc).
  destruct u1; [injection Hc; intros; subst; auto|].
  destruct (nltb _ _); [injection Hc; intros; subst; auto|].
  apply bind_ok in Hc as (br & _ & Hc).
  apply bind_ok in Hc as ([T2 rr] & _ & Hc).
  apply bind_ok in Hc as (br2 & _ & Hc).
  apply bind_ok in Hc as ([[T3 o3] u3] & _ & Hc).
  injection Hc; intros; subst; auto.
Qed.

Lemma normalize_nonneg (A : tab) (b : row) :
  length A = length b -> (forall x, In x b -> nltb x nzero = false) ->
  normalize A b = (A, b).
Proof.
  intros Hl Hb. unfold normalize. f_equal.
  - revert b Hl Hb; induction A as [|r A IH]; intros [|x b] Hl Hb; simpl in *;
      try discriminate; [reflexivity|].
    rewrite (Hb x (or_introl eq_refl)). f_equal.
    apply IH; [lia|intros y Hy; apply Hb; right; exact Hy].
  - clear Hl. induction b as [|x b IH]; simpl; [reflexivity|].
    rewrite (Hb x (or_introl eq_refl)). f_equal.
    apply IH. intros y Hy. apply Hb. right. exact Hy.
Qed.

End Facts.

(** ** Exact arithmetic: [pivoting] on rationals *)

Section ExactPivot.

Local Open Scope nat_scope.

Lemma nzeroQ : @nzero Q NumQ = 0%Q.
Proof. reflexivity. Qed.
Lemma nsubQ x y : @nsub Q NumQ x y = Qred (x - y).
Proof. reflexivity. Qed.
Lemma nmulQ x y : @nmul Q NumQ x y = Qred (x * y).
Proof. reflexivity. Qed.
Lemma ndivQ x y : @ndiv Q NumQ x y = Qred (x / y).
Proof. reflexivity. Qed.

Lemma Qred_idem x : Qred (Qred x) = Qred x.
Proof. apply Qred_complete, Qred_correct. Qed.

Lemma pivot_nonzero (t : Q) : nltb (nabs t) neps = false -> ~ (t == 0)%Q.
Proof.
  cbn. intros Ht Ht0.
  apply negb_false_iff, Qle_bool_iff in Ht.
  rewrite Qred_correct, Ht0 in Ht.
  vm_compute in Ht. apply Ht. reflexivity.
Qed.

Lemma pivoting_Q_spec (T : list (list Q)) (p q : nat)
  (Hq : q < nrows T) (Hp : p < ncols T)
  (Hrect : forall r, In r T -> length r = ncols T)
  (Hpiv : nltb (nabs (get T q p)) neps = false) :
  exists T' : list (list Q), pivoting T p q = Ok T' /\ length T' = length T /\
    nth q T' [] = map (fun x => ndiv x (get T q p)) (nth q T []) /\
    get T' q p = 1%Q /\
    (forall i, i < length T -> i <> q ->
       nth i T' [] = map2 (fun x y => nsub x (nmul (get T i p) y)) (nth i T []) (nth q T' []) /\
       get T' i p = 0%Q) /\
    (forall r, In r T' -> length r = ncols T /\ qnormal r).
Proof.
  rewrite pivoting_ok_or_small by assumption. rewrite Hpiv.
  eexists; split; [reflexivity|].
  set (t := get T q p) in *.
  assert (Ht0 := pivot_nonzero t Hpiv).
  assert (Hlq : length (nth q T []) = ncols T) by (apply Hrect, nth_In; exact Hq).
  set (T' := mapi _ T).
  assert (HTq : nth q T' [] = map (fun x => ndiv x t) (nth q T [])).
  { unfold T'. rewrite (nth_mapi _ _ _ []) by exact Hq. rewrite Nat.eqb_refl. reflexivity. }
  split; [apply length_mapi|].
  split; [exact HTq|].
  split.
  { unfold get at 1. rewrite HTq.
    rewrite (nth_indep _ nzero (ndiv nzero t)) by (rewrite length_map; lia).
    rewrite (map_nth (fun x => ndiv x t)). fold (get T q p). fold t.
    change (Qred (t / t) = 1%Q). rewrite (Qred_complete (t / t) 1); [reflexivity|].
    unfold Qdiv. apply Qmult_inv_r. exact Ht0. }
  split.
  { intros i Hi Hiq.
    assert (Hli : length (nth i T []) = ncols T) by (apply Hrect, nth_In; exact Hi).
    assert (HTi : nth i T' [] =
              map2 (fun x y => nsub x (ndiv (nmul (nth p (nth i T []) nzero) y) t))
                   (nth i T []) (nth q T [])).
    { unfold T'. rewrite (nth_mapi _ _ _ []) by exact Hi.
      apply Nat.eqb_neq in Hiq. rewrite Hiq. reflexivity. }
    split.
    - rewrite HTi, HTq, map2_map_r. apply map2_ext. intros x y.
      fold (get T i p). rewrite !nsubQ, !nmulQ, !ndivQ.
      apply Qred_complete. rewrite !Qred_correct.
      unfold Qminus, Qdiv. ring.
    - unfold get at 1. rewrite HTi.
      rewrite (nth_map2 _ _ _ _ nzero nzero) by lia.
      fold (get T q p). fold t. fold (get T i p).
      rewrite nsubQ, ndivQ, nmulQ.
      rewrite (Qred_complete _ 0); [reflexivity|].
      rewrite !Qred_correct. rewrite Qdiv_mult_l by exact Ht0.
      unfold Qminus. apply Qplus_opp_r. }
  intros r Hr. unfold T', mapi in Hr.
  apply in_mapi_from in Hr as (i & x & Hx & ->).
  assert (Hlx : length x = ncols T) by (apply Hrect; exact Hx).
  destruct (i =? q).
  - split; [rewrite length_map; exact Hlx|].
    intros z Hz. apply in_map_iff in Hz as (y & <- & _). apply Qred_idem.
  - assert (Hlq' : length (@nth (@row Q) q T []) = ncols T) by exact Hlq.
    split; [rewrite length_map2; lia|].
    intros z Hz. apply in_map2 in Hz as (y1 & y2 & ->). apply Qred_idem.
Qed.

End ExactPivot.

(** ** The claims that hold for every number type *)

Section Claims.

Context {R : Type} `{Num R}.
Local Open Scope nat_scope.

(** C1 (amended): [simplexTableau] returns as entering column the first
    column whose reduced cost is negative (the first [True] of
    [reducedCost < 0]), and the basis-form [simplex] chooses its entering
    variable by the same rule; neither looks for the most negative one. *)
Theorem entering_column_first_negative (T : tab) (p q : nat) (reducedCost : row) (pb : nat)
  (HT : simplexTableau T = Ok (SelPivot p q))
  (Hb : basisEntering reducedCost = Some pb) :
  first_negative (butlast (last T [])) p /\ first_negative reducedCost pb.
Proof.
  split.
  - unfold simplexTableau in HT.
    destruct (existsb id (map (fun x => nltb x nzero) (butlast (last T [])))) eqn:E;
      simpl in HT; [|discriminate].
    apply bind_ok in HT as (q' & _ & HT).
    destruct (ext_is_inf _); [discriminate|].
    injection HT as <- <-. apply mask_first_negative. exact E.
  - unfold basisEntering in Hb.
    destruct (existsb id (map (fun x => nltb x nzero) reducedCost)) eqn:E;
      simpl in Hb; [|discriminate].
    injection Hb as <-. apply mask_first_negative. exact E.
Qed.

(** C7: for a pivot position in range, [pivoting] raises the
    "pivot too close to zero" error exactly when [|tableau[q][p]| < eps];
    otherwise it returns a tableau.  It never writes into its argument: the
    result is a new array ([np.empty]), so [T] is unchanged in both cases. *)
Theorem pivoting_degenerate_iff (T : tab) (p q : nat)
  (Hq : q < nrows T) (Hp : p < ncols T) :
  (pivoting T p q = Err ErrPivotSmall <-> nltb (nabs (get T q p)) neps = true) /\
  (nltb (nabs (get T q p)) neps = false -> exists T', pivoting T p q = Ok T').
Proof.
  rewrite (pivoting_ok_or_small T p q Hq Hp).
  destruct (nltb (nabs (get T q p)) neps).
  - split; [split; reflexivity|discriminate].
  - split; [split; discriminate|intros _; eexists; reflexivity].
Qed.

(** C10: every result [(tableau, unbounded, infeasible)] of [simplex] has
    at most one of its two flags set. *)
Theorem simplex_flags_exclusive (fuel : nat) (P : lp) (T : tab) (u i : bool)
  (HP : fst (simplex fuel P) = Ok (T, u, i)) :
  ~ (u = true /\ i = true).
Proof.
  unfold simplex in HP.
  destruct (length (lpb P) =? length (lpA P)); simpl in HP; [|discriminate].
  destruct (length (lpc P) =? lpn P); simpl in HP; [|discriminate].
  destruct (normalize (lpA P) (lpb P)) as [A b]. simpl in HP.
  apply simplex_core_flags in HP.
  intros [-> ->]. destruct HP; discriminate.
Qed.

(** C3 (amended): [simplex] does not leave the caller's arrays as they
    were.  Once the size checks pass, the caller's [A] and [b] hold the
    sign-normalised values (row [i] of [A] and [b[i]] negated wherever
    [b[i] < 0]), whatever the outcome of the call; [c] is never written; the
    arrays are unchanged when a size check fails or no entry of [b] is
    negative. *)
Theorem simplex_caller_arrays (fuel : nat) (P : lp) :
  snd (simplex fuel P) =
    (if (length (lpb P) =? length (lpA P)) && (length (lpc P) =? lpn P)
     then mkLP (fst (normalize (lpA P) (lpb P))) (lpn P)
               (snd (normalize (lpA P) (lpb P))) (lpc P)
     else P) /\
  lpc (snd (simplex fuel P)) = lpc P /\
  ((forall x, In x (lpb P) -> nltb x nzero = false) -> snd (simplex fuel P) = P).
Proof.
  unfold simplex.
  destruct (normalize (lpA P) (lpb P)) as [A b] eqn:En.
  destruct (Nat.eqb_spec (length (lpb P)) (length (lpA P))) as [Eb|Eb]; simpl;
    [|split; [reflexivity|split; reflexivity]].
  destruct (Nat.eqb_spec (length (lpc P)) (lpn P)) as [Ec|Ec]; simpl;
    [|split; [reflexivity|split; reflexivity]].
  split; [reflexivity|split; [reflexivity|]].
  intros Hneg. rewrite normalize_nonneg in En by (auto; lia).
  injection En as <- <-. destruct P; reflexivity.
Qed.

(** C2 (amended): when phase I stops with an optimal auxiliary tableau
    [T1], [simplex] reports INFEASIBLE, returning [T1], exactly when the
    right-hand side of the objective row of [T1] is below
    [-sqrt(eps)], that is when the optimal auxiliary objective value
    (its negative) is above [sqrt(eps)]. *)
Theorem simplex_infeasible_iff (fuel : nat) (P : lp) (T1 : tab) (opt : bool)
  (Hb : length (lpb P) = length (lpA P)) (Hc : length (lpc P) = lpn P)
  (H1 : simplexAlgorithmTableau fuel
          (phaseOneTableau0 (length (lpA P)) (lpn P)
             (fst (normalize (lpA P) (lpb P))) (snd (normalize (lpA P) (lpb P))))
        = Ok (T1, opt, false)) :
  ((exists T u, fst (simplex fuel P) = Ok (T, u, true)) <->
   nltb (lastv (last T1 [])) (nopp nsqrteps) = true) /\
  (nltb (lastv (last T1 [])) (nopp nsqrteps) = true ->
   fst (simplex fuel P) = Ok (T1, false, true)).
Proof.
  unfold simplex.
  destruct (normalize (lpA P) (lpb P)) as [A b]. cbn [fst snd] in H1.
  rewrite (proj2 (Nat.eqb_eq _ _) Hb), (proj2 (Nat.eqb_eq _ _) Hc). cbn [negb fst].
  unfold simplex_core. rewrite H1. cbn [bind].
  destruct (nltb (lastv (last T1 [])) (nopp nsqrteps)).
  - split; [split; [reflexivity|intros _; eauto]|intros _; reflexivity].
  - split; [split; [|discriminate]|discriminate].
    intros (T & u & HT).
    apply bind_ok in HT as (br & _ & HT).
    apply bind_ok in HT as ([T2 rr] & _ & HT).
    apply bind_ok in HT as (br2 & _ & HT).
    apply bind_ok in HT as ([[T3 o3] u3] & _ & HT).
    discriminate.
Qed.

(** C8 (amended): [simplex] has no check of finiteness.  The only error it
    raises before building a tableau is the size error, and it raises it
    exactly when [len(b)] differs from the number of rows of [A] or
    [len(c)] from its number of columns; the entries themselves, finite or
    not, go into the tableau unchecked. *)
Theorem simplex_only_size_checks (fuel : nat) (P : lp) :
  fst (simplex fuel P) = Err ErrSizes <->
  (length (lpb P) <> length (lpA P) \/ length (lpc P) <> lpn P).
Proof.
  unfold simplex.
  destruct (Nat.eqb_spec (length (lpb P)) (length (lpA P))) as [Eb|Eb]; simpl;
    [|split; [intros _; left; exact Eb|reflexivity]].
  destruct (Nat.eqb_spec (length (lpc P)) (lpn P)) as [Ec|Ec]; simpl;
    [|split; [intros _; right; exact Ec|reflexivity]].
  destruct (normalize (lpA P) (lpb P)) as [A b]. simpl.
  split.
  - intros Hs. exfalso. exact (simplex_core_not_sizes _ _ _ _ _ _ Hs).
  - intros [E|E]; contradiction.
Qed.

End Claims.

(** ** The claims on concrete number types *)

Section ConcreteClaims.

Local Open Scope nat_scope.

(** C1, counterexample: on reduced costs [-1, -5] both [simplexTableau] and
    the basis-form [simplex] enter column [0], while the most negative
    reduced cost is in column [1]. *)
Lemma entering_column_not_most_negative :
  simplexTableau tab_two_negative = Ok (SelPivot 0 0) /\
  basisEntering (butlast (last tab_two_negative [])) = Some 0 /\
  dantzigColumn (butlast (last tab_two_negative [])) = 1.
Proof. split; [|split]; vm_compute; reflexivity. Qed.

Lemma entering_column_first_negative_witness :
  (simplexTableau tab_two_negative = Ok (SelPivot 0 0) /\
   basisEntering [-1;-5]%Q = Some 0) /\
  (first_negative (butlast (last tab_two_negative [])) 0 /\ first_negative [-1;-5]%Q 0).
Proof.
  split; [split; vm_compute; reflexivity|].
  apply (entering_column_first_negative tab_two_negative 0 0 [-1;-5]%Q 0);
    vm_compute; reflexivity.
Defined.

(** C2, counterexample: on [0 * x = 1] phase I stops optimal with auxiliary
    value [1], which is not below zero, and [simplex] reports INFEASIBLE. *)
Lemma infeasible_on_positive_aux_value :
  simplexAlgorithmTableau 10 (phaseOneTableau0 1 1 [[0]]%Q [1]%Q)
    = Ok (phase1_no_solution, true, false) /\
  optimal_value phase1_no_solution = 1%Q /\
  fst (simplex 10 lp_no_solution) = Ok (phase1_no_solution, false, true).
Proof. split; [|split]; vm_compute; reflexivity. Qed.

Lemma simplex_infeasible_iff_witness :
  (length (lpb lp_no_solution) = length (lpA lp_no_solution) /\
   length (lpc lp_no_solution) = lpn lp_no_solution /\
   simplexAlgorithmTableau 10
     (phaseOneTableau0 (length (lpA lp_no_solution)) (lpn lp_no_solution)
        (fst (normalize (lpA lp_no_solution) (lpb lp_no_solution)))
        (snd (normalize (lpA lp_no_solution) (lpb lp_no_solution))))
   = Ok (phase1_no_solution, true, false)) /\
  (((exists T u, fst (simplex 10 lp_no_solution) = Ok (T, u, true)) <->
    nltb (lastv (last phase1_no_solution [])) (nopp nsqrteps) = true) /\
   (nltb (lastv (last phase1_no_solution [])) (nopp nsqrteps) = true ->
    fst (simplex 10 lp_no_solution) = Ok (phase1_no_solution, false, true))).
Proof.
  split; [split; [reflexivity|split; [reflexivity|vm_compute; reflexivity]]|].
  apply (simplex_infeasible_iff 10 lp_no_solution phase1_no_solution true);
    [reflexivity|reflexivity|vm_compute; reflexivity].
Defined.

(** C3, counterexample: after [simplex] on [A = [[1]]], [b = [-1]], the
    caller's [A] is [[-1]] and its [b] is [[1]]. *)
Lemma simplex_writes_caller_arrays :
  snd (simplex 10 lp_negative_b) = mkLP [[-1]]%Q 1 [1]%Q [0]%Q /\
  lpb (snd (simplex 10 lp_negative_b)) <> lpb lp_negative_b.
Proof. split; vm_compute; [reflexivity|discriminate]. Qed.

Lemma simplex_caller_arrays_witness :
  (forall x, In x (lpb lp_redundant) -> nltb x nzero = false) /\
  snd (simplex 50 lp_redundant) = lp_redundant.
Proof.
  assert (Hb : forall x, In x (lpb lp_redundant) -> nltb x nzero = false).
  { intros x Hx. simpl in Hx.
    destruct Hx as [<-|[<-|[<-|[]]]]; vm_compute; reflexivity. }
  split; [exact Hb|].
  apply (proj2 (proj2 (simplex_caller_arrays 50 lp_redundant))). exact Hb.
Defined.

(** C4, the failing input: [lp_redundant] is OPTIMAL with value [2] at
    [(1, 1)]; repeating its last row gives an OPTIMAL report with value [1]
    at [(-1, 1)], which is not even feasible.  The second redundant row is
    removed with [np.delete(tableau, rowsToRemove, 0)] where [rowsToRemove]
    still holds the index of the first one, already deleted, so a row of
    the basis goes too. *)
Lemma duplicate_row_changes_optimum :
  optimal_report 50 lp_redundant = Some (2%Q, Ok [1;1]%Q) /\
  optimal_report 50 lp_redundant_dup = Some (1%Q, Ok [-1;1]%Q).
Proof. split; vm_compute; reflexivity. Qed.

(** C5 (amended, exact arithmetic): with a pivot of absolute value at least
    [eps], [pivoting] returns a tableau of the same shape whose row [q] is
    row [q] of [T] divided by [T[q][p]], with entry [(q, p)] equal to [1],
    and whose every other row [i] is row [i] of [T] minus [T[i][p]] times
    the new row [q], with entry [(i, p)] equal to [0]. *)
Theorem pivoting_gauss_jordan (T : list (list Q)) (p q : nat)
  (Hq : q < nrows T) (Hp : p < ncols T)
  (Hrect : forall r, In r T -> length r = ncols T)
  (Hpiv : nltb (nabs (get T q p)) neps = false) :
  exists T' : list (list Q), pivoting T p q = Ok T' /\ length T' = length T /\
    nth q T' [] = map (fun x => ndiv x (get T q p)) (nth q T []) /\
    get T' q p = 1%Q /\
    (forall i, i < length T -> i <> q ->
       nth i T' [] = map2 (fun x y => nsub x (nmul (get T i p) y)) (nth i T []) (nth q T' []) /\
       get T' i p = 0%Q).
Proof.
  destruct (pivoting_Q_spec T p q Hq Hp Hrect Hpiv) as (T' & E & Hl & H1 & H2 & H3 & _).
  exists T'. repeat split; auto; apply H3; auto.
Qed.

Lemma tab_three_rect : forall r, In r tab_three -> length r = ncols tab_three.
Proof. intros r Hr. simpl in Hr. destruct Hr as [<-|[<-|[]]]; reflexivity. Qed.

Lemma pivoting_gauss_jordan_witness :
  (0 < nrows tab_three /\ 0 < ncols tab_three /\
   nltb (nabs (get tab_three 0 0)) neps = false) /\
  exists T' : list (list Q), pivoting tab_three 0 0 = Ok T' /\ length T' = length tab_three /\
    nth 0 T' [] = map (fun x => ndiv x (get tab_three 0 0)) (nth 0 tab_three []) /\
    get T' 0 0 = 1%Q /\
    (forall i, i < length tab_three -> i <> 0 ->
       nth i T' [] = map2 (fun x y => nsub x (nmul (get tab_three i 0) y))
                          (nth i tab_three []) (nth 0 T' []) /\
       get T' i 0 = 0%Q).
Proof.
  split; [split; [vm_compute; lia|split; [vm_compute; lia|vm_compute; reflexivity]]|].
  apply (pivoting_gauss_jordan tab_three 0 0);
    [vm_compute; lia|vm_compute; lia|exact tab_three_rect|vm_compute; reflexivity].
Defined.

(** C5, counterexample (float64): pivoting [[3, 1], [0.1, 0]] on [(0, 0)]
    leaves [0.1 - (0.1 * 3) / 3 = -2^-56], not [0], in column [0]. *)
Lemma pivoting_float_residue :
  exists T', pivoting tab_tenth 0 0 = Ok T' /\ get T' 1 0 = (-0x1p-56)%float.
Proof.
  exists (match pivoting tab_tenth 0 0 with Ok T' => T' | Err _ => [] end).
  split; vm_compute; reflexivity.
Qed.

(** C6, the failing input: a tableau with no constraint row and a negative
    reduced cost makes [np.argmin] of the empty [steps] raise instead of
    reporting UNBOUNDED; [simplex] reaches such a tableau on [min -x]
    subject to [0 * x = 0], whose only row phase I deletes as redundant. *)
Lemma selector_without_rows_raises :
  simplexTableau ([[-1;0]]%Q : list (list Q)) = Err ErrArgminEmpty /\
  fst (simplex 50 lp_unbounded_redundant) = Err ErrArgminEmpty.
Proof. split; vm_compute; reflexivity. Qed.

Lemma pivoting_degenerate_iff_witness :
  (0 < nrows tab_three /\ 0 < ncols tab_three) /\
  (pivoting tab_three 0 0 = Err ErrPivotSmall <-> nltb (nabs (get tab_three 0 0)) neps = true) /\
  (nltb (nabs (get tab_three 0 0)) neps = false -> exists T', pivoting tab_three 0 0 = Ok T').
Proof.
  split; [split; vm_compute; lia|].
  apply (pivoting_degenerate_iff tab_three 0 0); vm_compute; lia.
Defined.

(** C8, counterexample: on [A = [[nan]]] [simplex] raises nothing and
    returns an ordinary INFEASIBLE result computed from the NaN. *)
Lemma simplex_accepts_nan :
  exists T, fst (simplex 10 lp_nan) = Ok (T, false, true) /\ PrimFloat.is_nan (get T 0 0) = true.
Proof.
  exists (match fst (simplex 10 lp_nan) with Ok (T, _, _) => T | Err _ => [] end).
  split; vm_compute; reflexivity.
Qed.

(** C9 (amended, exact arithmetic): pivoting again on the same position a
    tableau [pivoting] returned gives that tableau back. *)
Theorem pivoting_repivot_noop (T T' : list (list Q)) (p q : nat)
  (Hq : q < nrows T) (Hp : p < ncols T)
  (Hrect : forall r, In r T -> length r = ncols T)
  (Hpiv : nltb (nabs (get T q p)) neps = false)
  (HT : pivoting T p q = Ok T') :
  pivoting T' p q = Ok T'.
Proof.
  destruct (pivoting_Q_spec T p q Hq Hp Hrect Hpiv) as (T'' & E & Hl & Hrq & H1 & Hi & Hn).
  rewrite HT in E. injection E as <-.
  assert (Hq' : q < length (A := list Q) T) by exact Hq.
  assert (Hc : ncols T' = ncols T).
  { destruct T' as [|r0 T0]; [simpl in Hl; lia|].
    apply (Hn r0). left. reflexivity. }
  assert (Hq'' : q < nrows T') by (unfold nrows; change (q < length (A := list Q) T'); lia).
  rewrite pivoting_ok_or_small by (exact Hq'' || lia).
  rewrite H1.
  assert (E1 : nltb (nabs 1%Q) neps = false) by reflexivity.
  rewrite E1. f_equal.
  apply mapi_from_id. intros i r Hir Hr.
  assert (Hri : r = nth i T' []) by (symmetry; apply nth_error_nth; exact Hr).
  assert (Hin : In r T') by (apply nth_error_In with i; exact Hr).
  destruct (Hn r Hin) as [Hlr Hnr].
  cbv beta. rewrite Nat.add_0_l. destruct (Nat.eqb_spec i q) as [->|Hiq].
  - rewrite <- (map_id r) at 2. apply map_ext_in. intros x Hx.
    rewrite ndivQ. transitivity (Qred x); [|exact (Hnr x Hx)].
    apply Qred_complete. field.
  - assert (Hz : nth p r nzero = 0%Q).
    { rewrite Hri. apply (proj2 (Hi i ltac:(lia) Hiq)). }
    rewrite Hz. apply map2_fst.
    + assert (Hlq : length (@nth (@row Q) q T' []) = ncols T)
        by (apply Hn, nth_In; exact Hq'').
      lia.
    + intros x y Hx. rewrite nsubQ, ndivQ, nmulQ.
      transitivity (Qred x); [|exact (Hnr x Hx)].
      apply Qred_complete. rewrite !Qred_correct. field.
Qed.

Lemma pivoting_repivot_noop_witness :
  (0 < nrows tab_three /\ 0 < ncols tab_three /\
   nltb (nabs (get tab_three 0 0)) neps = false /\
   pivoting tab_three 0 0 = Ok [[1;1#3];[0;-1#30]]%Q) /\
  pivoting [[1;1#3];[0;-1#30]]%Q 0 0 = Ok [[1;1#3];[0;-1#30]]%Q.
Proof.
  split; [split; [vm_compute; lia|split; [vm_compute; lia|split; vm_compute; reflexivity]]|].
  apply (pivoting_repivot_noop tab_three);
    [vm_compute; lia|vm_compute; lia|exact tab_three_rect|vm_compute; reflexivity
    |vm_compute; reflexivity].
Defined.

(** C9, counterexample (float64): pivoting [[3, 1], [0.1, 0]] on [(0, 0)]
    and then again on [(0, 0)] does not give the first result back: the
    second pivot turns the residue [-2^-56] into [0]. *)
Lemma pivoting_float_repivot_changes :
  exists T', pivoting tab_tenth 0 0 = Ok T' /\ pivoting T' 0 0 <> Ok T'.
Proof.
  exists (match pivoting tab_tenth 0 0 with Ok T' => T' | Err _ => [] end).
  split; [vm_compute; reflexivity|].
  intros E.
  apply (f_equal (fun r => match r with
                           | Ok T => PrimFloat.eqb (get T 1 0) 0%float
                           | Err _ => false end)) in E.
  vm_compute in E. discriminate E.
Qed.

Lemma simplex_flags_exclusive_witness :
  fst (simplex 10 lp_no_solution) = Ok (phase1_no_solution, false, true) /\
  ~ (false = true /\ true = true).
Proof.
  split; [vm_compute; reflexivity|].
  apply (simplex_flags_exclusive 10 lp_no_solution phase1_no_solution false true).
  vm_compute; reflexivity.
Defined.

End ConcreteClaims.

(** ** Further properties shared by every number type *)

Section MoreFacts.

Context {R : Type} `{Num R}.
Local Open Scope nat_scope.

Lemma existsb_mask (f : R -> bool) (l : list R) : existsb id (map f l) = existsb f l.
Proof. induction l as [|x l IH]; simpl; [reflexivity|rewrite IH; reflexivity]. Qed.

Lemma length_butlast (r : list R) : length (butlast r) = length r - 1.
Proof.
  unfold butlast. induction r as [|x [|y r] IH]; simpl in *; try reflexivity.
  rewrite IH. lia.
Qed.

Lemma last_in {A} (l : list A) d : l <> [] -> In (last l d) l.
Proof.
  induction l as [|x [|y l] IH]; intros Hl; [congruence|left; reflexivity|].
  simpl. right. apply IH. discriminate.
Qed.

Lemma argmin_from_lt i mi mp l : mi < i -> argmin_from i mi mp l < i + length l.
Proof.
  revert i mi mp; induction l as [|x l IH]; intros i mi mp Hi; simpl; [lia|].
  destruct (ext_nan x); [lia|].
  destruct (ext_lt x mp).
  - pose proof (IH (S i) i x ltac:(lia)). lia.
  - pose proof (IH (S i) mi mp ltac:(lia)). lia.
Qed.

Lemma argmin_lt l q : argmin l = Ok q -> q < length l.
Proof.
  destruct l as [|x l]; simpl; [discriminate|].
  destruct (ext_nan x); intros E; injection E as <-; [lia|].
  pose proof (argmin_from_lt 1 0 x l ltac:(lia)). lia.
Qed.

Lemma argmin_err l e : argmin l = Err e <-> l = [] /\ e = ErrArgminEmpty.
Proof.
  destruct l as [|x l]; simpl.
  - split; [intros E; injection E as <-; auto|intros [_ ->]; reflexivity].
  - destruct (ext_nan x); split; try discriminate; intros [E _]; discriminate.
Qed.

Lemma simplexTableau_pivot_range (T : tab) p q :
  simplexTableau T = Ok (SelPivot p q) ->
  q < nrows T - 1 /\ first_negative (butlast (last T [])) p.
Proof.
  unfold simplexTableau. cbv zeta.
  destruct (existsb id _) eqn:E; simpl; [|discriminate].
  intros HT. apply bind_ok in HT as (q' & Hq & HT).
  destruct (ext_is_inf _); [discriminate|].
  injection HT as <- <-. split.
  - apply argmin_lt in Hq. rewrite length_map, length_seq in Hq. exact Hq.
  - apply mask_first_negative. exact E.
Qed.

Lemma selected_pivot_in_range (T : tab) p q :
  rect T -> simplexTableau T = Ok (SelPivot p q) ->
  q < nrows T - 1 /\ p < ncols T - 1.
Proof.
  intros Hr HT. destruct (simplexTableau_pivot_range T p q HT) as [Hq [Hp _]].
  destruct T as [|r0 T0]; [simpl in Hp; lia|].
  rewrite length_butlast in Hp.
  rewrite (Hr _ (last_in (r0 :: T0) [] ltac:(discriminate))) in Hp.
  split; [exact Hq|exact Hp].
Qed.

Lemma pivoting_range (T T' : tab) p q :
  pivoting T p q = Ok T' -> q < nrows T /\ p < ncols T.
Proof.
  unfold pivoting.
  destruct (Nat.leb_spec (nrows T) q); [discriminate|].
  destruct (Nat.leb_spec (ncols T) p); [discriminate|].
  intros _. split; assumption.
Qed.

Lemma pivoting_shape_aux (T T' : tab) p q :
  rect T -> pivoting T p q = Ok T' -> nrows T' = nrows T /\ ncols T' = ncols T /\ rect T'.
Proof.
  intros Hr HT.
  destruct (pivoting_range T T' p q HT) as [Hq Hp].
  rewrite pivoting_ok_or_small in HT by assumption.
  destruct (nltb _ _); [discriminate|]. injection HT as HT.
  assert (Hlen : length T' = length T) by (rewrite <- HT; apply length_mapi).
  assert (Hrows : forall r, In r T' -> length r = ncols T).
  { intros r Hr'. rewrite <- HT in Hr'. unfold mapi in Hr'.
    apply in_mapi_from in Hr' as (i & x & Hx & ->).
    destruct (i =? q).
    - rewrite length_map. apply Hr. exact Hx.
    - rewrite length_map2, (Hr x Hx), (Hr (nth q T []) (nth_In _ _ Hq)). lia. }
  assert (Hc : ncols T' = ncols T).
  { destruct T' as [|r0 T0]; [simpl in Hlen; unfold nrows in Hq; lia|].
    apply Hrows. left. reflexivity. }
  split; [exact Hlen|split; [exact Hc|]].
  intros r Hr'. rewrite Hc. apply Hrows. exact Hr'.
Qed.

Lemma simplexAlgorithmTableau_stop_aux fuel (T T' : tab) o u :
  simplexAlgorithmTableau fuel T = Ok (T', o, u) ->
  (o = true /\ u = false /\ simplexTableau T' = Ok SelOptimal) \/
  (o = false /\ u = true /\ simplexTableau T' = Ok SelUnbounded).
Proof.
  revert T; induction fuel as [|f IH]; intros T HT; simpl in HT; [discriminate|].
  apply bind_ok in HT as (s & Hs & HT). destruct s as [| |p q].
  - injection HT as <- <- <-. left. auto.
  - injection HT as <- <- <-. right. auto.
  - apply bind_ok in HT as (T1 & _ & HT). exact (IH T1 HT).
Qed.

Lemma simplexAlgorithmTableau_shape_aux fuel (T T' : tab) o u :
  rect T -> simplexAlgorithmTableau fuel T = Ok (T', o, u) ->
  nrows T' = nrows T /\ ncols T' = ncols T /\ rect T'.
Proof.
  revert T; induction fuel as [|f IH]; intros T Hr HT; simpl in HT; [discriminate|].
  apply bind_ok in HT as (s & Hs & HT). destruct s as [| |p q].
  - injection HT as <- <- <-. auto.
  - injection HT as <- <- <-. auto.
  - apply bind_ok in HT as (T1 & HT1 & HT).
    destruct (pivoting_shape_aux T T1 p q Hr HT1) as (E1 & E2 & Hr1).
    destruct (IH T1 Hr1 HT) as (E3 & E4 & Hr2).
    split; [congruence|split; [congruence|exact Hr2]].
Qed.

Lemma simplexTableau_err_aux (T : tab) e :
  simplexTableau T = Err e <->
  e = ErrArgminEmpty /\ nrows T <= 1 /\
  existsb (fun x => nltb x nzero) (butlast (last T [])) = true.
Proof.
  unfold simplexTableau. cbv zeta. rewrite existsb_mask.
  destruct (existsb (fun x => nltb x nzero) (butlast (last T []))); simpl.
  - destruct (nrows T - 1) as [|m'] eqn:Em; simpl.
    + split; [intros E; injection E as <-; split; [reflexivity|split; [lia|reflexivity]]|].
      intros [-> _]. reflexivity.
    + destruct (ext_nan _); simpl; (split; [|intros (_ & Hn & _); lia]);
        destruct (ext_is_inf _); discriminate.
  - split; [discriminate|intros (_ & _ & E); discriminate].
Qed.

Lemma simplexAlgorithmTableau_errors_aux fuel (T : tab) e :
  rect T -> simplexAlgorithmTableau fuel T = Err e ->
  e = ErrArgminEmpty \/ e = ErrPivotSmall \/ e = ErrFuel.
Proof.
  revert T; induction fuel as [|f IH]; intros T Hr HT; simpl in HT.
  - injection HT as <-. auto.
  - destruct (simplexTableau T) as [s|e'] eqn:Hs; simpl in HT.
    + destruct s as [| |p q]; try discriminate.
      destruct (selected_pivot_in_range T p q Hr Hs) as [Hq Hp].
      destruct (pivoting T p q) as [T1|e1] eqn:HP; simpl in HT.
      * apply (IH T1); [|exact HT].
        exact (proj2 (proj2 (pivoting_shape_aux T T1 p q Hr HP))).
      * injection HT as <-.
        rewrite pivoting_ok_or_small in HP by lia.
        destruct (nltb _ _); [|discriminate]. injection HP as <-. auto.
    + injection HT as <-. apply simplexTableau_err_aux in Hs as [-> _]. auto.
Qed.

Lemma getRow_scan_some (c : list R) j0 s r :
  getRow_scan c j0 (Some s) = Some r <->
  r = s /\ forall k, k < length c -> nltb nsqrteps (nabs (nth k c nzero)) = false.
Proof.
  revert j0; induction c as [|x c IH]; intros j0; simpl.
  - split; [intros E; injection E as <-; split; [reflexivity|intros k Hk; lia]|].
    intros [-> _]. reflexivity.
  - destruct (nltb nsqrteps (nabs x)) eqn:Ex.
    + split; [discriminate|]. intros [_ Hk]. rewrite (Hk 0 ltac:(lia)) in Ex. discriminate.
    + rewrite IH. split.
      * intros [-> Hk]. split; [reflexivity|]. intros [|k] Hk'; [exact Ex|apply Hk; lia].
      * intros [-> Hk]. split; [reflexivity|]. intros k Hk'. apply (Hk (S k)). lia.
Qed.

Lemma getRow_scan_none (c : list R) j0 r :
  getRow_scan c j0 None = Some r <->
  exists k, r = j0 + k /\ k < length c /\
    nltb nsqrteps (nabs (nth k c nzero)) = true /\
    nleb (nabs (nsub (nth k c nzero) none)) neps = true /\
    forall k', k' < length c -> k' <> k -> nltb nsqrteps (nabs (nth k' c nzero)) = false.
Proof.
  revert j0; induction c as [|x c IH]; intros j0; simpl.
  - split; [discriminate|intros (k & _ & Hk & _); lia].
  - destruct (nltb nsqrteps (nabs x)) eqn:Ex.
    + destruct (nleb (nabs (nsub x none)) neps) eqn:E1.
      * rewrite getRow_scan_some. split.
        -- intros [-> Hk]. exists 0. split; [lia|split; [lia|split; [exact Ex|split; [exact E1|]]]].
           intros [|k'] Hk' Hne; [congruence|apply Hk; lia].
        -- intros (k & -> & Hk & Hb & Ho & Hz). destruct k as [|k].
           ++ split; [lia|]. intros k' Hk'. apply (Hz (S k')); lia.
           ++ rewrite (Hz 0 ltac:(lia) ltac:(lia)) in Ex. discriminate.
      * split; [discriminate|]. intros (k & _ & Hk & Hb & Ho & Hz). destruct k as [|k].
        -- simpl in Ho. congruence.
        -- rewrite (Hz 0 ltac:(lia) ltac:(lia)) in Ex. discriminate.
    + rewrite IH. split.
      * intros (k & -> & Hk & Hb & Ho & Hz). exists (S k).
        split; [lia|split; [lia|split; [exact Hb|split; [exact Ho|]]]].
        intros [|k'] Hk' Hne; [exact Ex|apply Hz; lia].
      * intros (k & -> & Hk & Hb & Ho & Hz). destruct k as [|k]; [simpl in Hb; congruence|].
        exists k. split; [lia|split; [lia|split; [exact Hb|split; [exact Ho|]]]].
        intros k' Hk' Hne. apply (Hz (S k')); lia.
Qed.

Lemma nth_column (T : tab) index k :
  nth k (map (fun r => nth index r nzero) T) nzero = get T k index.
Proof.
  unfold get. revert k; induction T as [|r T IH]; intros [|k]; simpl;
    try reflexivity; try (destruct index; reflexivity). apply IH.
Qed.

Lemma basicRowsOf_total (T : tab) cnt :
  cnt <= ncols T - 1 -> exists br, basicRowsOf T cnt = Ok br /\ length br = cnt.
Proof.
  intros Hc. unfold basicRowsOf.
  assert (Hl : forall k, In k (seq 0 cnt) -> k < ncols T - 1)
    by (intros k Hk; apply in_seq in Hk; lia).
  assert (G : forall l, (forall k, In k l -> k < ncols T - 1) ->
               exists br, mapM (getRow T) l = Ok br /\ length br = length l).
  { induction l as [|k l IH]; intros Hl'; simpl; [exists []; auto|].
    unfold getRow at 1. destruct (Nat.leb_spec (ncols T - 1) k).
    { specialize (Hl' k (or_introl eq_refl)). lia. }
    simpl. destruct IH as (br & -> & Hbr); [intros k' Hk'; apply Hl'; right; exact Hk'|].
    simpl. eexists; split; [reflexivity|simpl; congruence]. }
  destruct (G (seq 0 cnt) Hl) as (br & E & Hb).
  exists br. rewrite length_seq in Hb. auto.
Qed.

Lemma nth_firstn_lt {A} (l : list A) m k d : k < m -> nth k (firstn m l) d = nth k l d.
Proof.
  revert m k; induction l as [|x l IH]; intros [|m] [|k] Hk; simpl; try lia; try reflexivity.
  apply IH. lia.
Qed.

Lemma nth_map_default {A B} (f : A -> B) (l : list A) k a b :
  f a = b -> nth k (map f l) b = f (nth k l a).
Proof. intros <-. apply map_nth. Qed.

(** [simplexTableau] with [xb], [minusd] and [steps] read off the tableau. *)
Lemma simplexTableau_unfold (T : tab) :
  simplexTableau T =
  if negb (existsb (fun x => nltb x nzero) (butlast (last T []))) then Ok SelOptimal
  else
    bind (argmin (map (fun k =>
            if nltb nzero (get T k (argmax_bool (map (fun x => nltb x nzero) (butlast (last T [])))))
            then XFin (ndiv (lastv (nth k T []))
                            (get T k (argmax_bool (map (fun x => nltb x nzero) (butlast (last T []))))))
            else XInf) (seq 0 (nrows T - 1))))
      (fun q => if ext_is_inf (nth q (map (fun k =>
            if nltb nzero (get T k (argmax_bool (map (fun x => nltb x nzero) (butlast (last T [])))))
            then XFin (ndiv (lastv (nth k T []))
                            (get T k (argmax_bool (map (fun x => nltb x nzero) (butlast (last T []))))))
            else XInf) (seq 0 (nrows T - 1))) XInf)
                then Ok SelUnbounded
                else Ok (SelPivot (argmax_bool (map (fun x => nltb x nzero) (butlast (last T [])))) q)).
Proof.
  unfold simplexTableau. cbv zeta. rewrite <- existsb_mask.
  destruct (existsb id _); [simpl|reflexivity].
  erewrite (map_ext_in _ _ (seq 0 (nrows T - 1))); [reflexivity|].
  intros k Hk. apply in_seq in Hk.
  rewrite (nth_map_default (fun r : row => nth _ r nzero) _ _ []) by (destruct (argmax_bool _); reflexivity).
  rewrite (nth_map_default lastv _ _ []) by reflexivity.
  rewrite !nth_firstn_lt by lia. reflexivity.
Qed.

End MoreFacts.

(** ** Exact arithmetic: the choices of [simplexTableau] on rationals *)

Section QFacts.

Local Open Scope nat_scope.

Lemma nltbQ (x y : Q) : nltb x y = true <-> (x < y)%Q.
Proof.
  change (nltb x y) with (negb (Qle_bool y x)). rewrite negb_true_iff. split; intros Hx.
  - apply Qnot_le_lt. intros Hle. apply Qle_bool_iff in Hle. congruence.
  - destruct (Qle_bool y x) eqn:E; [|reflexivity].
    apply Qle_bool_iff in E. exfalso. exact (Qlt_not_le _ _ Hx E).
Qed.

Lemma nltbQ_false (x y : Q) : nltb x y = false <-> (y <= x)%Q.
Proof.
  change (nltb x y) with (negb (Qle_bool y x)). rewrite negb_false_iff. apply Qle_bool_iff.
Qed.

Lemma ext_lt_irrefl (a : @ext Q) : ext_lt a a = false.
Proof.
  destruct a as [x|]; [|reflexivity].
  change (nltb x x = false). apply nltbQ_false. apply Qle_refl.
Qed.

Lemma ext_lt_trans (a b c : @ext Q) :
  ext_lt a b = true -> ext_lt b c = true -> ext_lt a c = true.
Proof.
  destruct a as [x|]; [|discriminate]. destruct b as [y|]; [|discriminate].
  destruct c as [z|]; intros H1 H2; [|reflexivity].
  change (nltb x y = true) in H1. change (nltb y z = true) in H2. change (nltb x z = true).
  apply nltbQ in H1, H2. apply nltbQ. exact (Qlt_trans _ _ _ H1 H2).
Qed.

Lemma ext_lt_le_trans (a b c : @ext Q) :
  ext_lt a b = true -> ext_lt c b = false -> ext_lt a c = true.
Proof.
  destruct a as [x|]; [|discriminate].
  destruct b as [y|], c as [z|]; intros H1 H2; try reflexivity.
  - change (nltb x y = true) in H1. change (nltb z y = false) in H2. change (nltb x z = true).
    apply nltbQ in H1. apply nltbQ_false in H2. apply nltbQ. exact (Qlt_le_trans _ _ _ H1 H2).
  - change (true = false) in H2. discriminate.
Qed.

Lemma ext_nan_Q (a : @ext Q) : ext_nan a = false.
Proof. destruct a; reflexivity. Qed.

Lemma argmin_from_first_min (l pre : list (@ext Q)) mi :
  mi < length pre ->
  (forall k, k < length pre -> ext_lt (nth k pre XInf) (nth mi pre XInf) = false) ->
  (forall k, k < mi -> ext_lt (nth mi pre XInf) (nth k pre XInf) = true) ->
  let q := argmin_from (length pre) mi (nth mi pre XInf) l in
  q < length (pre ++ l) /\
  (forall k, k < length (pre ++ l) -> ext_lt (nth k (pre ++ l) XInf) (nth q (pre ++ l) XInf) = false) /\
  (forall k, k < q -> ext_lt (nth q (pre ++ l) XInf) (nth k (pre ++ l) XInf) = true).
Proof.
  revert pre mi; induction l as [|x l IH]; intros pre mi Hmi H1 H2; cbv zeta.
  - simpl. rewrite app_nil_r. split; [exact Hmi|split; [exact H1|exact H2]].
  - simpl argmin_from. rewrite ext_nan_Q.
    replace (pre ++ x :: l) with ((pre ++ [x]) ++ l) by (rewrite <- app_assoc; reflexivity).
    assert (Hlen : length (pre ++ [x]) = S (length pre)) by (rewrite length_app; simpl; lia).
    assert (Hx : nth (length pre) (pre ++ [x]) XInf = x)
      by (rewrite app_nth2, Nat.sub_diag by lia; reflexivity).
    assert (Hpre : forall k, k < length pre -> nth k (pre ++ [x]) XInf = nth k pre XInf)
      by (intros k Hk; apply app_nth1; exact Hk).
    destruct (ext_lt x (nth mi pre XInf)) eqn:Elt.
    + specialize (IH (pre ++ [x]) (length pre)). rewrite Hlen, Hx in IH. apply IH.
      * lia.
      * intros k Hk. destruct (Nat.lt_ge_cases k (length pre)) as [Hk'|Hk'].
        -- rewrite Hpre by exact Hk'.
           destruct (ext_lt (nth k pre XInf) x) eqn:E; [|reflexivity].
           pose proof (ext_lt_trans _ _ _ E Elt) as E'. rewrite (H1 k Hk') in E'. discriminate.
        -- replace k with (length pre) by lia. rewrite Hx. apply ext_lt_irrefl.
      * intros k Hk. rewrite Hpre by exact Hk.
        exact (ext_lt_le_trans _ _ _ Elt (H1 k Hk)).
    + specialize (IH (pre ++ [x]) mi). rewrite Hlen, (Hpre mi Hmi) in IH. apply IH.
      * lia.
      * intros k Hk. destruct (Nat.lt_ge_cases k (length pre)) as [Hk'|Hk'].
        -- rewrite Hpre by exact Hk'. apply H1. exact Hk'.
        -- replace k with (length pre) by lia. rewrite Hx. exact Elt.
      * intros k Hk. rewrite Hpre by lia. apply H2. exact Hk.
Qed.

Lemma argmin_Q (l : list (@ext Q)) q :
  argmin l = Ok q ->
  q < length l /\
  (forall k, k < length l -> ext_lt (nth k l XInf) (nth q l XInf) = false) /\
  (forall k, k < q -> ext_lt (nth q l XInf) (nth k l XInf) = true).
Proof.
  destruct l as [|x l]; [discriminate|].
  unfold argmin. rewrite ext_nan_Q. intros E; injection E as <-.
  apply (argmin_from_first_min l [x] 0); simpl; [lia| |intros; lia].
  intros k Hk. destruct k; [apply ext_lt_irrefl|simpl in Hk; lia].
Qed.

Lemma nth_map_seq {A} (g : nat -> A) m k d : k < m -> nth k (map g (seq 0 m)) d = g k.
Proof.
  intros Hk. rewrite (nth_indep _ d (g 0)) by (rewrite length_map, length_seq; exact Hk).
  rewrite map_nth, seq_nth by exact Hk. reflexivity.
Qed.

Lemma first_negative_mask {R} `{Num R} (l : list R) p :
  first_negative l p ->
  existsb (fun x => nltb x nzero) l = true /\ argmax_bool (map (fun x => nltb x nzero) l) = p.
Proof.
  intros (Hp & Hneg & Hbef).
  assert (Hex : existsb id (map (fun x => nltb x nzero) l) = true).
  { destruct (existsb id _) eqn:E; [reflexivity|].
    assert (Hl : p < length (map (fun x => nltb x nzero) l)) by (rewrite length_map; exact Hp).
    pose proof (existsb_nth id _ false Hl E) as E'. unfold id in E'.
    rewrite nth_mask in E' by exact Hp. congruence. }
  split; [rewrite <- existsb_mask; exact Hex|].
  destruct (argmax_bool_first _ Hex) as (Ha & Hat & Hab). rewrite length_map in Ha.
  rewrite nth_mask in Hat by exact Ha.
  destruct (Nat.lt_trichotomy (argmax_bool (map (fun x => nltb x nzero) l)) p) as [Hlt|[Heq|Hgt]].
  - rewrite (Hbef _ Hlt) in Hat. discriminate.
  - exact Heq.
  - specialize (Hab p Hgt). rewrite nth_mask in Hab by exact Hp. congruence.
Qed.

Lemma simplexTableau_optimal_aux {R} `{Num R} (T : @tab R) :
  simplexTableau T = Ok SelOptimal <->
  forall x, In x (butlast (last T [])) -> nltb x nzero = false.
Proof.
  rewrite simplexTableau_unfold.
  destruct (existsb (fun x => nltb x nzero) (butlast (last T []))) eqn:E; cbn [negb].
  - split.
    + destruct (argmin _) as [q|e]; cbn [bind]; [|discriminate].
      destruct (ext_is_inf _); discriminate.
    + intros Hall. apply existsb_exists in E as (x & Hx & Ex). rewrite (Hall x Hx) in Ex. discriminate.
  - split; [|reflexivity]. intros _ x Hx.
    apply not_true_iff_false. intros Ex.
    assert (Ht : existsb (fun x => nltb x nzero) (butlast (last T [])) = true)
      by (apply existsb_exists; exists x; auto).
    congruence.
Qed.

Lemma simplexTableau_ratio_aux (T : @tab Q) p q :
  simplexTableau T = Ok (SelPivot p q) ->
  q < nrows T - 1 /\ (0 < get T q p)%Q /\
  (forall k, k < nrows T - 1 -> (0 < get T k p)%Q ->
     (lastv (nth q T []) / get T q p <= lastv (nth k T []) / get T k p)%Q /\
     (k < q -> (lastv (nth q T []) / get T q p < lastv (nth k T []) / get T k p)%Q)).
Proof.
  rewrite simplexTableau_unfold.
  destruct (existsb _ _); cbn [negb]; [|discriminate].
  set (p0 := argmax_bool _).
  intros HT. apply bind_ok in HT as (q' & Hq' & HT).
  destruct (ext_is_inf _) eqn:Ei; [discriminate|].
  injection HT as Hp Hq. subst p q.
  destruct (argmin_Q _ _ Hq') as (Hlt & Hmin & Hfirst). rewrite length_map, length_seq in Hlt, Hmin.
  rewrite nth_map_seq in Ei by exact Hlt.
  destruct (nltb nzero (get T q' p0)) eqn:Eq; [|simpl in Ei; discriminate].
  split; [exact Hlt|]. split; [apply nltbQ in Eq; exact Eq|].
  intros k Hk Hpos.
  assert (Ek : nltb nzero (get T k p0) = true) by (apply nltbQ; exact Hpos).
  specialize (Hmin k Hk). rewrite !nth_map_seq in Hmin by assumption.
  rewrite Ek, Eq in Hmin. cbn [ext_lt] in Hmin.
  apply nltbQ_false in Hmin. rewrite !ndivQ, !Qred_correct in Hmin.
  split; [exact Hmin|]. intros Hkq.
  specialize (Hfirst k Hkq). rewrite !nth_map_seq in Hfirst by lia.
  rewrite Ek, Eq in Hfirst. cbn [ext_lt] in Hfirst.
  apply nltbQ in Hfirst. rewrite !ndivQ, !Qred_correct in Hfirst. exact Hfirst.
Qed.

Lemma simplexTableau_unbounded_aux (T : @tab Q) p :
  1 < nrows T -> first_negative (butlast (last T [])) p ->
  (simplexTableau T = Ok SelUnbounded <-> forall k, k < nrows T - 1 -> (get T k p <= 0)%Q).
Proof.
  intros Hm Hfn. destruct (first_negative_mask _ _ Hfn) as [Hex Harg].
  rewrite simplexTableau_unfold, Hex, Harg. cbn [negb].
  destruct (argmin _) as [q|e] eqn:Ea; cbn [bind].
  2: { apply argmin_err in Ea as [Hnil _].
       destruct (nrows T - 1) eqn:E; [lia|simpl in Hnil; discriminate]. }
  destruct (argmin_Q _ _ Ea) as (Hlt & Hmin & _). rewrite length_map, length_seq in Hlt, Hmin.
  rewrite nth_map_seq by exact Hlt.
  split.
  - destruct (nltb nzero (get T q p)) eqn:Eq; [intros Hu; simpl in Hu; discriminate|].
    intros _ k Hk. apply Qnot_lt_le. intros Hpos.
    assert (Ek : nltb nzero (get T k p) = true) by (apply nltbQ; exact Hpos).
    specialize (Hmin k Hk). rewrite !nth_map_seq in Hmin by assumption.
    rewrite Ek, Eq in Hmin. change (true = false) in Hmin. discriminate.
  - intros Hall.
    assert (Eq : nltb nzero (get T q p) = false) by (apply nltbQ_false; apply Hall; exact Hlt).
    rewrite Eq. reflexivity.
Qed.

Lemma last_nth_len {A} (l : list A) d : last l d = nth (length l - 1) l d.
Proof.
  induction l as [|x [|y l] IH]; [reflexivity|reflexivity|].
  transitivity (last (y :: l) d); [reflexivity|]. rewrite IH.
  simpl. rewrite Nat.sub_0_r. reflexivity.
Qed.

Lemma last_map_ne {A B} (f : A -> B) (l : list A) d d' :
  l <> [] -> last (map f l) d' = f (last l d).
Proof.
  induction l as [|x [|y l] IH]; intros Hl; [congruence|reflexivity|].
  transitivity (last (map f (y :: l)) d'); [reflexivity|].
  rewrite IH by discriminate. reflexivity.
Qed.

Lemma last_map2_ne {A B C} (f : A -> B -> C) (l1 : list A) (l2 : list B) d1 d2 d :
  length l1 = length l2 -> l1 <> [] ->
  last (map2 f l1 l2) d = f (last l1 d1) (last l2 d2).
Proof.
  revert l2; induction l1 as [|x [|y l1] IH]; intros [|x2 [|y2 l2]] Hl Hne;
    simpl in Hl; try lia; try congruence; [reflexivity|].
  transitivity (last (map2 f (y :: l1) (y2 :: l2)) d); [reflexivity|].
  rewrite (IH (y2 :: l2)) by (simpl; lia || discriminate). reflexivity.
Qed.

Lemma nth_butlast {R} `{Num R} (r : list R) k :
  k < length r - 1 -> nth k (butlast r) nzero = nth k r nzero.
Proof.
  intros Hk. unfold butlast. rewrite removelast_firstn_len.
  apply nth_firstn_lt. rewrite <- Nat.sub_1_r. exact Hk.
Qed.

Lemma pivot_step_aux (T T' : @tab Q) p q :
  rect T -> feasible T -> simplexTableau T = Ok (SelPivot p q) -> pivoting T p q = Ok T' ->
  rect T' /\ feasible T' /\ (lastv (last T []) <= lastv (last T' []))%Q.
Proof.
  intros Hr Hf HS HP.
  destruct (simplexTableau_ratio_aux T p q HS) as (Hq & Ht & Hratio).
  destruct (selected_pivot_in_range T p q Hr HS) as [_ Hp].
  destruct (simplexTableau_pivot_range T p q HS) as [_ Hfn].
  destruct (pivoting_shape_aux T T' p q Hr HP) as (Hlen & Hcols & Hr').
  assert (Hpiv : nltb (nabs (get T q p)) neps = false).
  { rewrite pivoting_ok_or_small in HP by lia. destruct (nltb _ _); [discriminate|reflexivity]. }
  destruct (pivoting_Q_spec T p q ltac:(lia) ltac:(lia) Hr Hpiv)
    as (T'' & HP' & _ & Hrowq & _ & Hrows & _).
  rewrite HP in HP'. injection HP' as <-.
  change (@length (list Q) T) with (@length (@row Q) T) in Hrows.
  change (@nth (list Q)) with (@nth (@row Q)) in Hrowq, Hrows.
  unfold nrows in *.
  set (t := get T q p) in *.
  assert (Hrow : forall k, k < length T -> length (nth k T []) = ncols T)
    by (intros k Hk; apply Hr, nth_In; exact Hk).
  assert (Hne : forall k, k < length T -> nth k T [] <> [])
    by (intros k Hk E; pose proof (Hrow k Hk) as E'; rewrite E in E'; simpl in E'; lia).
  assert (Hxq : lastv (nth q T' []) = Qred (lastv (nth q T []) / t)).
  { unfold lastv. rewrite Hrowq. rewrite (last_map_ne _ _ nzero) by (apply Hne; lia).
    apply ndivQ. }
  assert (Hxk : forall k, k < length T -> k <> q ->
            (lastv (nth k T' []) == lastv (nth k T []) - get T k p * (lastv (nth q T []) / t))%Q).
  { intros k Hk Hkq. destruct (Hrows k Hk Hkq) as [Hk' _]. unfold lastv at 1. rewrite Hk'.
    rewrite (last_map2_ne _ _ _ nzero nzero).
    - fold (lastv (nth k T [])). fold (lastv (nth q T' [])). rewrite Hxq.
      rewrite nsubQ, nmulQ, !Qred_correct. reflexivity.
    - rewrite Hrowq, length_map, !Hrow by lia. reflexivity.
    - apply Hne. exact Hk. }
  assert (Hr0 : (0 <= lastv (nth q T []) / t)%Q).
  { apply Qle_shift_div_l; [exact Ht|]. rewrite Qmult_0_l. apply Hf. exact Hq. }
  split; [exact Hr'|split].
  - intros k Hk. unfold nrows in Hk. rewrite Hlen in Hk.
    destruct (Nat.eq_dec k q) as [->|Hkq].
    + rewrite Hxq, Qred_correct. exact Hr0.
    + rewrite (Hxk k ltac:(lia) Hkq).
      assert (Hxk0 : (0 <= lastv (nth k T []))%Q) by (apply Hf; exact Hk).
      destruct (Qlt_le_dec 0 (get T k p)) as [Ha|Ha].
      * destruct (Hratio k Hk Ha) as [Hle _].
        assert (H1 : (get T k p * (lastv (nth q T []) / t) <=
                      get T k p * (lastv (nth k T []) / get T k p))%Q)
          by (apply Qmult_le_l; assumption).
        assert (H2 : (get T k p * (lastv (nth k T []) / get T k p) == lastv (nth k T []))%Q).
        { field. intros E. rewrite E in Ha. exact (Qlt_irrefl 0 Ha). }
        lra.
      * revert Hr0. generalize (lastv (nth q T []) / t)%Q as r. intros r Hr0. nra.
  - destruct (length T) as [|m1] eqn:Em; [lia|].
    assert (Hm : m1 <> q) by lia.
    rewrite !last_nth_len. rewrite Hlen, Em. simpl (S m1 - 1). rewrite Nat.sub_0_r.
    rewrite (Hxk m1 ltac:(lia) Hm).
    destruct Hfn as (Hpl & Hneg & _).
    rewrite length_butlast in Hpl. rewrite nth_butlast in Hneg by exact Hpl.
    rewrite last_nth_len, Em in Hneg. simpl (S m1 - 1) in Hneg. rewrite Nat.sub_0_r in Hneg.
    apply nltbQ in Hneg.
    change (get T m1 p < 0)%Q in Hneg.
    revert Hr0. generalize (lastv (nth q T []) / t)%Q as r. intros r Hr0. nra.
Qed.

Lemma simplexAlgorithmTableau_feasible_aux fuel (T T' : @tab Q) o u :
  rect T -> feasible T -> simplexAlgorithmTableau fuel T = Ok (T', o, u) ->
  feasible T' /\ (lastv (last T []) <= lastv (last T' []))%Q.
Proof.
  revert T; induction fuel as [|f IH]; intros T Hr Hf HT; simpl in HT; [discriminate|].
  apply bind_ok in HT as (s & Hs & HT). destruct s as [| |p q].
  - injection HT as <- _ _. split; [exact Hf|apply Qle_refl].
  - injection HT as <- _ _. split; [exact Hf|apply Qle_refl].
  - apply bind_ok in HT as (T1 & HT1 & HT).
    destruct (pivot_step_aux T T1 p q Hr Hf Hs HT1) as (Hr1 & Hf1 & Hle1).
    destruct (IH T1 Hr1 Hf1 HT) as [Hf2 Hle2].
    split; [exact Hf2|exact (Qle_trans _ _ _ Hle1 Hle2)].
Qed.

Lemma simplexTableau_unbounded_col {R} `{Num R} (T : @tab R) :
  simplexTableau T = Ok SelUnbounded ->
  1 < nrows T /\
  first_negative (butlast (last T [])) (argmax_bool (map (fun x => nltb x nzero) (butlast (last T [])))).
Proof.
  unfold simplexTableau. cbv zeta.
  destruct (existsb id _) eqn:E; simpl; [|discriminate].
  intros HT. apply bind_ok in HT as (q & Hq & _).
  split; [|apply mask_first_negative; exact E].
  apply argmin_lt in Hq. rewrite length_map, length_seq in Hq. lia.
Qed.

Lemma simplexAlgorithmTableau_outcome_aux fuel (T T' : @tab Q) o u :
  simplexAlgorithmTableau fuel T = Ok (T', o, u) ->
  (o = true /\ u = false /\ forall x, In x (butlast (last T' [])) -> (0 <= x)%Q) \/
  (o = false /\ u = true /\ exists p, first_negative (butlast (last T' [])) p /\
     forall k, k < nrows T' - 1 -> (get T' k p <= 0)%Q).
Proof.
  intros HT. destruct (simplexAlgorithmTableau_stop_aux fuel T T' o u HT)
    as [(-> & -> & Hs)|(-> & -> & Hs)].
  - left. split; [reflexivity|split; [reflexivity|]]. intros x Hx.
    apply nltbQ_false. apply (proj1 (simplexTableau_optimal_aux T') Hs). exact Hx.
  - right. split; [reflexivity|split; [reflexivity|]].
    destruct (simplexTableau_unbounded_col T' Hs) as [Hm Hfn].
    eexists. split; [exact Hfn|]. apply (simplexTableau_unbounded_aux T' _ Hm Hfn). exact Hs.
Qed.

Lemma removelast_map {A B} (f : A -> B) (l : list A) :
  removelast (map f l) = map f (removelast l).
Proof.
  induction l as [|a [|b l] IH]; [reflexivity|reflexivity|].
  transitivity (f a :: removelast (map f (b :: l))); [reflexivity|].
  rewrite IH. reflexivity.
Qed.

Lemma removelast_map2 {A B C} (f : A -> B -> C) (l1 : list A) (l2 : list B) :
  length l1 = length l2 -> removelast (map2 f l1 l2) = map2 f (removelast l1) (removelast l2).
Proof.
  revert l2; induction l1 as [|a [|b l1] IH]; intros [|a2 [|b2 l2]] Hl;
    simpl in Hl; try lia; try reflexivity.
  transitivity (f a a2 :: removelast (map2 f (b :: l1) (b2 :: l2))); [reflexivity|].
  rewrite IH by (simpl; lia). reflexivity.
Qed.

Lemma dot_map_div (r x : list Q) t :
  ~ (t == 0)%Q -> (dot (map (fun a => ndiv a t) r) x == dot r x / t)%Q.
Proof.
  intros Ht. revert x; induction r as [|a r IH]; intros [|y x]; cbn [dot map].
  - field. exact Ht.
  - field. exact Ht.
  - field. exact Ht.
  - rewrite ndivQ, Qred_correct, IH. field. exact Ht.
Qed.

Lemma dot_map2_sub (r1 r2 x : list Q) c :
  length r1 = length r2 ->
  (dot (map2 (fun a b => nsub a (nmul c b)) r1 r2) x == dot r1 x - c * dot r2 x)%Q.
Proof.
  revert r2 x; induction r1 as [|a r1 IH]; intros [|b r2] [|y x] Hl; simpl in Hl; try lia;
    cbn [dot map2]; try ring.
  rewrite nsubQ, nmulQ, !Qred_correct, IH by lia. ring.
Qed.

Lemma solves_nth (T : @tab Q) x :
  solves T x <-> forall i, i < length T -> row_holds x (nth i T []).
Proof.
  split.
  - intros Hs i Hi. apply Hs, nth_In. exact Hi.
  - intros Hs r Hr. destruct (In_nth _ _ [] Hr) as (i & Hi & <-). apply Hs. exact Hi.
Qed.

Lemma pivoting_solves_aux (T T' : @tab Q) p q x :
  rect T -> pivoting T p q = Ok T' -> (solves T x <-> solves T' x).
Proof.
  intros Hr HP.
  destruct (pivoting_range T T' p q HP) as [Hq Hp].
  assert (Hpiv : nltb (nabs (get T q p)) neps = false).
  { rewrite pivoting_ok_or_small in HP by lia. destruct (nltb _ _); [discriminate|reflexivity]. }
  destruct (pivoting_Q_spec T p q Hq Hp Hr Hpiv)
    as (T'' & HP' & Hlen & Hrowq & _ & Hrows & _).
  rewrite HP in HP'. injection HP' as <-.
  change (@length (list Q) T) with (@length (@row Q) T) in Hrows, Hlen.
  change (@length (list Q) T') with (@length (@row Q) T') in Hlen.
  change (@nth (list Q)) with (@nth (@row Q)) in Hrowq, Hrows.
  unfold nrows in Hq.
  set (t := get T q p) in *.
  assert (Ht : ~ (t == 0)%Q) by (apply pivot_nonzero; exact Hpiv).
  assert (Hrow : forall k, k < length T -> length (nth k T []) = ncols T)
    by (intros k Hk; apply Hr, nth_In; exact Hk).
  assert (Hne : forall k, k < length T -> nth k T [] <> [])
    by (intros k Hk E; pose proof (Hrow k Hk) as E'; rewrite E in E'; simpl in E'; lia).
  (* row [q] is divided by the pivot *)
  assert (Dq : (dot (butlast (nth q T' [])) x == dot (butlast (nth q T [])) x / t)%Q).
  { unfold butlast. rewrite Hrowq, removelast_map. apply dot_map_div. exact Ht. }
  assert (Lq : (lastv (nth q T' []) == lastv (nth q T []) / t)%Q).
  { unfold lastv. rewrite Hrowq, (last_map_ne _ _ nzero) by (apply Hne; exact Hq).
    rewrite ndivQ, Qred_correct. reflexivity. }
  (* the other rows lose a multiple of the new row [q] *)
  assert (Hlq : length (nth q T' []) = ncols T) by (rewrite Hrowq, length_map; apply Hrow; exact Hq).
  assert (Di : forall i, i < length T -> i <> q ->
            (dot (butlast (nth i T' [])) x ==
             dot (butlast (nth i T [])) x - get T i p * dot (butlast (nth q T' [])) x)%Q).
  { intros i Hi Hiq. destruct (Hrows i Hi Hiq) as [E _]. unfold butlast. rewrite E.
    rewrite removelast_map2 by (rewrite Hlq; apply Hrow; exact Hi).
    apply dot_map2_sub. rewrite !removelast_firstn_len, !length_firstn, Hlq, Hrow by exact Hi.
    reflexivity. }
  assert (Li : forall i, i < length T -> i <> q ->
            (lastv (nth i T' []) == lastv (nth i T []) - get T i p * lastv (nth q T' []))%Q).
  { intros i Hi Hiq. destruct (Hrows i Hi Hiq) as [E _]. unfold lastv at 1. rewrite E.
    rewrite (last_map2_ne _ _ _ nzero nzero) by first [rewrite Hlq; apply Hrow; exact Hi | apply Hne; exact Hi].
    rewrite nsubQ, nmulQ, !Qred_correct. reflexivity. }
  rewrite !solves_nth. unfold row_holds. rewrite Hlen. split.
  - intros Hs i Hi. destruct (Nat.eq_dec i q) as [->|Hiq].
    + rewrite Dq, Lq, (Hs q Hq). reflexivity.
    + rewrite (Di i Hi Hiq), (Li i Hi Hiq), (Hs i Hi), Dq, Lq, (Hs q Hq). reflexivity.
  - intros Hs.
    assert (Hsq : (dot (butlast (nth q T [])) x == lastv (nth q T []))%Q).
    { pose proof (Hs q Hq) as E. rewrite Dq, Lq in E.
      apply (Qmult_inj_r _ _ (/ t)); [intros E'; apply Ht; rewrite <- (Qinv_involutive t), E'; reflexivity|].
      exact E. }
    intros i Hi. destruct (Nat.eq_dec i q) as [->|Hiq]; [exact Hsq|].
    pose proof (Hs i Hi) as E. rewrite (Di i Hi Hiq), (Li i Hi Hiq), (Hs q Hq) in E.
    apply (Qplus_inj_r _ _ (- (get T i p * lastv (nth q T' [])))). exact E.
Qed.

Lemma noppQ x : @nopp Q NumQ x = Qred (- x).
Proof. reflexivity. Qed.

Lemma dot_map_opp (r x : list Q) : (dot (map nopp r) x == - dot r x)%Q.
Proof.
  revert x; induction r as [|a r IH]; intros [|y x]; cbn [dot map]; try ring.
  rewrite noppQ, Qred_correct, IH. ring.
Qed.

Lemma normalize_aux (A : @tab Q) (b : list Q) A' b' x :
  length A = length b -> normalize A b = (A', b') ->
  length A' = length A /\ length b' = length b /\ (forall y, In y b' -> (0 <= y)%Q) /\
  ((forall i, i < length A -> (dot (nth i A []) x == nth i b 0)%Q) <->
   (forall i, i < length A -> (dot (nth i A' []) x == nth i b' 0)%Q)).
Proof.
  intros Hl HN.
  assert (HA : fst (normalize A b) = A') by (rewrite HN; reflexivity).
  assert (HB : snd (normalize A b) = b') by (rewrite HN; reflexivity).
  cbv [normalize fst snd] in HA, HB.
  assert (Hnth : forall i, i < length A ->
     nth i A' [] = (if nltb (nth i b 0%Q) nzero then map nopp (nth i A []) else nth i A []) /\
     nth i b' 0%Q = (if nltb (nth i b 0%Q) nzero then nopp (nth i b 0%Q) else nth i b 0%Q)).
  { intros i Hi. rewrite <- HA, <- HB. split.
    - rewrite (nth_map2 _ _ _ _ [] 0%Q) by first [exact Hi | lia]. reflexivity.
    - rewrite (nth_map_default _ _ _ 0%Q 0%Q) by reflexivity. reflexivity. }
  split; [rewrite <- HA, length_map2; change (@length (list Q) A) with (@length (@row Q) A); lia|].
  split; [rewrite <- HB, length_map; reflexivity|].
  split.
  - intros y Hy. rewrite <- HB in Hy. apply in_map_iff in Hy as (bi & <- & _).
    destruct (nltb bi nzero) eqn:E.
    + apply nltbQ in E. rewrite nzeroQ in E. rewrite noppQ, Qred_correct. lra.
    + apply nltbQ_false in E. rewrite nzeroQ in E. exact E.
  - split; intros Hs i Hi; specialize (Hs i Hi); destruct (Hnth i Hi) as [E1 E2].
    + rewrite E1, E2. destruct (nltb (nth i b 0%Q) nzero); [|exact Hs].
      rewrite dot_map_opp, noppQ, Qred_correct, Hs. reflexivity.
    + rewrite E1, E2 in Hs. destruct (nltb (nth i b 0%Q) nzero); [|exact Hs].
      rewrite dot_map_opp, noppQ, Qred_correct in Hs. lra.
Qed.




End QFacts.

(** ** Further properties of the code *)

Section Extras.

Context {R : Type} `{Num R}.
Local Open Scope nat_scope.

Lemma mapM_nth {A B} (f : A -> res B) (l : list A) ys k d d' :
  mapM f l = Ok ys -> k < length l -> f (nth k l d) = Ok (nth k ys d').
Proof.
  revert ys k; induction l as [|x l IH]; intros ys k E Hk; simpl in Hk; [lia|].
  simpl in E. apply bind_ok in E as (y & Hy & E). apply bind_ok in E as (ys' & Hys & E).
  injection E as <-. destruct k as [|k]; [exact Hy|exact (IH ys' k Hys ltac:(lia))].
Qed.


(** [pivoting] of a rectangular tableau returns a tableau with as many
    rows and columns, again rectangular. *)
Theorem pivoting_keeps_shape (T T' : tab) p q :
  rect T -> pivoting T p q = Ok T' ->
  nrows T' = nrows T /\ ncols T' = ncols T /\ rect T'.
Proof. exact (pivoting_shape_aux T T' p q). Qed.


(** [simplexTableau] raises only the [ValueError] of [np.argmin] on an
    empty sequence, and exactly when some reduced cost is negative while
    the tableau has no constraint row. *)
Theorem simplexTableau_error_iff (T : tab) e :
  simplexTableau T = Err e <->
  e = ErrArgminEmpty /\ nrows T <= 1 /\
  existsb (fun x => nltb x nzero) (butlast (last T [])) = true.
Proof. exact (simplexTableau_err_aux T e). Qed.

(** A run of [simplexAlgorithmTableau] on a rectangular tableau ends with a
    rectangular tableau of the same shape. *)
Theorem simplexAlgorithmTableau_keeps_shape fuel (T T' : tab) o u :
  rect T -> simplexAlgorithmTableau fuel T = Ok (T', o, u) ->
  nrows T' = nrows T /\ ncols T' = ncols T /\ rect T'.
Proof. exact (simplexAlgorithmTableau_shape_aux fuel T T' o u). Qed.

(** On a rectangular tableau [simplexAlgorithmTableau] never raises an
    index error of [pivoting]: its only failures are the empty [np.argmin],
    a too small pivot, and not stopping. *)
Theorem simplexAlgorithmTableau_error_kinds fuel (T : tab) e :
  rect T -> simplexAlgorithmTableau fuel T = Err e ->
  e = ErrArgminEmpty \/ e = ErrPivotSmall \/ e = ErrFuel.
Proof. exact (simplexAlgorithmTableau_errors_aux fuel T e). Qed.

(** [getRow] raises for an index that is not a variable column, and
    returns row [j] exactly when [T[j][index]] is the only entry of the
    column above [sqrt eps] in absolute value and is within [eps] of 1. *)
Theorem getRow_cases (T : tab) index j :
  (getRow T index = Err ErrIndex <-> ncols T - 1 <= index) /\
  (getRow T index = Ok (Some j) <->
     index < ncols T - 1 /\ j < nrows T /\
     nltb nsqrteps (nabs (get T j index)) = true /\
     nleb (nabs (nsub (get T j index) none)) neps = true /\
     forall k, k < nrows T -> k <> j -> nltb nsqrteps (nabs (get T k index)) = false).
Proof.
  unfold getRow. destruct (Nat.leb_spec (ncols T - 1) index) as [Hi|Hi].
  - split; [split; [intros _; exact Hi|intros _; reflexivity]|].
    split; [discriminate|intros [H' _]; lia].
  - split; [split; [discriminate|intros; lia]|].
    split.
    + intros E. injection E as E.
      apply getRow_scan_none in E as (k & Hjk & Hk & Hb & Ho & Hz).
      rewrite Nat.add_0_l in Hjk. subst j.
      rewrite length_map in Hk. rewrite nth_column in Hb, Ho.
      split; [exact Hi|split; [exact Hk|split; [exact Hb|split; [exact Ho|]]]].
      intros k' Hk' Hne. rewrite <- nth_column. apply Hz; [rewrite length_map; exact Hk'|exact Hne].
    + intros (_ & Hj & Hb & Ho & Hz). f_equal. apply getRow_scan_none. exists j.
      rewrite length_map, !nth_column.
      split; [reflexivity|split; [exact Hj|split; [exact Hb|split; [exact Ho|]]]].
      intros k' Hk' Hne. rewrite nth_column. apply Hz; assumption.
Qed.

(** The solution [printResults] reads off a tableau never raises: it has
    one value per variable column, the right-hand side of the row [getRow]
    finds for that column, and 0 when it finds none. *)
Theorem solution_reads_rhs (T : tab) :
  exists xs, solution T = Ok xs /\ length xs = ncols T - 1 /\
  forall k, k < ncols T - 1 ->
    nth k xs nzero = match getRow T k with Ok (Some r) => lastv (nth r T []) | _ => nzero end.
Proof.
  destruct (basicRowsOf_total T (ncols T - 1) (le_n _)) as (br & Hbr & Hlen).
  exists (map (fun o => match o with Some r => lastv (nth r T []) | None => nzero end) br).
  split; [unfold solution; rewrite Hbr; reflexivity|].
  split; [rewrite length_map; exact Hlen|].
  intros k Hk.
  pose proof (mapM_nth (getRow T) (seq 0 (ncols T - 1)) br k 0 None Hbr) as E.
  rewrite length_seq in E. specialize (E Hk). rewrite seq_nth, Nat.add_0_l in E by exact Hk.
  rewrite E. rewrite (nth_map_default _ _ _ None nzero) by reflexivity. reflexivity.
Qed.



(** The first tableau of phase I, built from [m] rows of length [n], has
    [m + 1] rows of [n + m + 1] entries each, and the right-hand side of
    its constraint row [k] is [b[k]]. *)
Theorem phaseOne_tableau_shape (A : tab) (b : row) m n :
  length A = m -> (forall r, In r A -> length r = n) ->
  nrows (phaseOneTableau0 m n A b) = m + 1 /\ ncols (phaseOneTableau0 m n A b) = n + m + 1 /\
  rect (phaseOneTableau0 m n A b) /\
  forall k, k < m -> lastv (nth k (phaseOneTableau0 m n A b) []) = nth k b nzero.
Proof.
  intros HA Hr.
  assert (Hrows : forall r, In r (phaseOneTableau0 m n A b) -> length r = n + m + 1).
  { intros r Hin. unfold phaseOneTableau0 in Hin. apply in_app_or in Hin as [Hin|[<-|[]]].
    - unfold mapi in Hin. apply in_mapi_from in Hin as (i & x & Hx & ->).
      rewrite !length_app, length_map, length_seq, (Hr x Hx). simpl. lia.
    - rewrite !length_app, length_map, length_seq, repeat_length. simpl. lia. }
  assert (Hl : nrows (phaseOneTableau0 m n A b) = m + 1).
  { unfold nrows, phaseOneTableau0. rewrite length_app, length_mapi.
    change (@length (list R)) with (@length (@row R)) in *. simpl. lia. }
  assert (Hc : ncols (phaseOneTableau0 m n A b) = n + m + 1).
  { unfold ncols. destruct (phaseOneTableau0 m n A b) as [|r0 T0] eqn:E.
    - unfold nrows in Hl. simpl in Hl. lia.
    - cbn [hd]. apply Hrows. left. reflexivity. }
  split; [exact Hl|split; [exact Hc|split]].
  - intros r Hin. rewrite Hc. apply Hrows. exact Hin.
  - intros k Hk. unfold phaseOneTableau0.
    rewrite app_nth1 by (rewrite length_mapi; change (@length (list R)) with (@length (@row R)); lia).
    rewrite (nth_mapi _ _ _ []) by (change (@length (list R)) with (@length (@row R)); lia).
    unfold lastv. rewrite app_assoc, last_last. reflexivity.
Qed.

End Extras.

(** ** Further properties of the code on rationals *)

Section QExtras.

Local Open Scope nat_scope.


(** On a tableau with at least one constraint row, whose entering column
    is [p], [simplexTableau] declares the problem unbounded exactly when no
    constraint row has a positive entry in column [p]. *)
Theorem simplexTableau_unbounded_iff (T : @tab Q) p :
  1 < nrows T -> first_negative (butlast (last T [])) p ->
  (simplexTableau T = Ok SelUnbounded <-> forall k, k < nrows T - 1 -> (get T k p <= 0)%Q).
Proof. exact (simplexTableau_unbounded_aux T p). Qed.

(** When [simplexAlgorithmTableau] returns, either [optimal] is set and no
    reduced cost of the final tableau is negative, or [unbounded] is set and
    the entering column [p] of the final tableau has no positive entry in a
    constraint row. *)
Theorem simplexAlgorithmTableau_outcome fuel (T T' : @tab Q) o u :
  simplexAlgorithmTableau fuel T = Ok (T', o, u) ->
  (o = true /\ u = false /\ forall x, In x (butlast (last T' [])) -> (0 <= x)%Q) \/
  (o = false /\ u = true /\ exists p, first_negative (butlast (last T' [])) p /\
     forall k, k < nrows T' - 1 -> (get T' k p <= 0)%Q).
Proof. exact (simplexAlgorithmTableau_outcome_aux fuel T T' o u). Qed.

(** Started on a rectangular tableau whose constraint right-hand sides are
    nonnegative, [simplexAlgorithmTableau] keeps them nonnegative and ends
    with an objective value ([-tableau[-1, -1]]) no larger than the one it
    started with. *)
Theorem simplexAlgorithmTableau_feasible fuel (T T' : @tab Q) o u :
  rect T -> feasible T -> simplexAlgorithmTableau fuel T = Ok (T', o, u) ->
  feasible T' /\ (optimal_value T' <= optimal_value T)%Q.
Proof.
  intros Hr Hf HT.
  destruct (simplexAlgorithmTableau_feasible_aux fuel T T' o u Hr Hf HT) as [Hf' Hle].
  split; [exact Hf'|].
  unfold optimal_value. rewrite !noppQ, !Qred_correct. apply Qopp_le_compat. exact Hle.
Qed.

(** [pivoting] a rectangular tableau does not change the solutions of the
    linear system its rows stand for ([row[:-1] . x = row[-1]]). *)
Theorem pivoting_same_solutions (T T' : @tab Q) p q x :
  rect T -> pivoting T p q = Ok T' -> (solves T x <-> solves T' x).
Proof. exact (pivoting_solves_aux T T' p q x). Qed.

(** The sign normalisation of [simplex] leaves every entry of [b]
    nonnegative, keeps the sizes, and keeps the solutions of [A x = b]. *)
Theorem normalize_nonneg_same_solutions (A : @tab Q) (b : list Q) A' b' x :
  length A = length b -> normalize A b = (A', b') ->
  length A' = length A /\ length b' = length b /\ (forall y, In y b' -> (0 <= y)%Q) /\
  ((forall i, i < length A -> (dot (nth i A []) x == nth i b 0)%Q) <->
   (forall i, i < length A -> (dot (nth i A' []) x == nth i b' 0)%Q)).
Proof. exact (normalize_aux A b A' b' x). Qed.



End QExtras.

(** ** The properties above on concrete inputs *)

Section ExtraWitnesses.

Local Open Scope nat_scope.

Local Ltac rect_tac :=
  let r := fresh "r" in let Hr := fresh "Hr" in
  intros r Hr; simpl in Hr; repeat (destruct Hr as [<-|Hr]; [reflexivity|]); contradiction.

Lemma pivoting_keeps_shape_witness :
  rect tab_three /\ pivoting tab_three 0 0 = Ok tab_three_pivoted /\
  (nrows tab_three_pivoted = nrows tab_three /\ ncols tab_three_pivoted = ncols tab_three /\
   rect tab_three_pivoted).
Proof.
  split; [rect_tac|]. split; [vm_compute; reflexivity|].
  apply (pivoting_keeps_shape tab_three tab_three_pivoted 0 0); [rect_tac|vm_compute; reflexivity].
Defined.

Lemma simplexAlgorithmTableau_keeps_shape_witness :
  rect tab_two_negative /\
  simplexAlgorithmTableau 10 tab_two_negative = Ok (tab_two_negative_final, true, false) /\
  (nrows tab_two_negative_final = nrows tab_two_negative /\
   ncols tab_two_negative_final = ncols tab_two_negative /\ rect tab_two_negative_final).
Proof.
  split; [rect_tac|]. split; [vm_compute; reflexivity|].
  apply (simplexAlgorithmTableau_keeps_shape 10 tab_two_negative tab_two_negative_final true false);
    [rect_tac|vm_compute; reflexivity].
Defined.

Lemma simplexAlgorithmTableau_error_kinds_witness :
  rect tab_tiny_pivot /\ simplexAlgorithmTableau 10 tab_tiny_pivot = Err ErrPivotSmall /\
  (ErrPivotSmall = ErrArgminEmpty \/ ErrPivotSmall = ErrPivotSmall \/ ErrPivotSmall = ErrFuel).
Proof.
  split; [rect_tac|]. split; [vm_compute; reflexivity|].
  apply (simplexAlgorithmTableau_error_kinds 10 tab_tiny_pivot); [rect_tac|vm_compute; reflexivity].
Defined.




Lemma simplexTableau_unbounded_iff_witness :
  (1 < nrows tab_unbounded /\ first_negative (butlast (last tab_unbounded [])) 0) /\
  (simplexTableau tab_unbounded = Ok SelUnbounded <->
   forall k, k < nrows tab_unbounded - 1 -> (get tab_unbounded k 0 <= 0)%Q).
Proof.
  assert (Hfn : first_negative (butlast (last tab_unbounded [])) 0)
    by (split; [vm_compute; lia|split; [reflexivity|intros j Hj; lia]]).
  assert (Hm : 1 < nrows tab_unbounded) by (vm_compute; lia).
  split; [split; [exact Hm|exact Hfn]|].
  exact (simplexTableau_unbounded_iff tab_unbounded 0 Hm Hfn).
Defined.

Lemma simplexAlgorithmTableau_outcome_witness :
  simplexAlgorithmTableau 10 tab_two_negative = Ok (tab_two_negative_final, true, false) /\
  ((true = true /\ false = false /\
    forall x, In x (butlast (last tab_two_negative_final [])) -> (0 <= x)%Q) \/
   (true = false /\ false = true /\
    exists p, first_negative (butlast (last tab_two_negative_final [])) p /\
      forall k, k < nrows tab_two_negative_final - 1 -> (get tab_two_negative_final k p <= 0)%Q)).
Proof.
  split; [vm_compute; reflexivity|].
  apply (simplexAlgorithmTableau_outcome 10 tab_two_negative). vm_compute; reflexivity.
Defined.

Lemma simplexAlgorithmTableau_feasible_witness :
  (rect tab_two_negative /\ feasible tab_two_negative /\
   simplexAlgorithmTableau 10 tab_two_negative = Ok (tab_two_negative_final, true, false)) /\
  (feasible tab_two_negative_final /\
   (optimal_value tab_two_negative_final <= optimal_value tab_two_negative)%Q).
Proof.
  assert (Hr : rect tab_two_negative) by rect_tac.
  assert (Hf : feasible tab_two_negative).
  { intros k Hk. destruct k as [|k]; [apply Qle_bool_iff; reflexivity|vm_compute in Hk; lia]. }
  assert (HT : simplexAlgorithmTableau 10 tab_two_negative = Ok (tab_two_negative_final, true, false))
    by (vm_compute; reflexivity).
  split; [split; [exact Hr|split; [exact Hf|exact HT]]|].
  exact (simplexAlgorithmTableau_feasible 10 tab_two_negative tab_two_negative_final true false Hr Hf HT).
Defined.

Lemma pivoting_same_solutions_witness :
  (rect tab_three /\ pivoting tab_three 0 0 = Ok tab_three_pivoted) /\
  (solves tab_three [0]%Q <-> solves tab_three_pivoted [0]%Q).
Proof.
  assert (Hr : rect tab_three) by rect_tac.
  assert (HP : pivoting tab_three 0 0 = Ok tab_three_pivoted) by (vm_compute; reflexivity).
  split; [split; [exact Hr|exact HP]|].
  exact (pivoting_same_solutions tab_three tab_three_pivoted 0 0 [0]%Q Hr HP).
Defined.

Lemma normalize_nonneg_same_solutions_witness :
  (length [[1]]%Q = length [-1]%Q /\ normalize [[1]]%Q [-1]%Q = ([[-1]]%Q, [1]%Q)) /\
  (length [[-1]]%Q = length [[1]]%Q /\ length [1]%Q = length [-1]%Q /\
   (forall y, In y [1]%Q -> (0 <= y)%Q) /\
   ((forall i, i < length [[1]]%Q -> (dot (nth i [[1]]%Q []) [-1]%Q == nth i [-1]%Q 0)%Q) <->
    (forall i, i < length [[1]]%Q -> (dot (nth i [[-1]]%Q []) [-1]%Q == nth i [1]%Q 0)%Q))).
Proof.
  assert (Hl : length [[1]]%Q = length [-1]%Q) by reflexivity.
  assert (HN : normalize [[1]]%Q [-1]%Q = ([[-1]]%Q, [1]%Q)) by (vm_compute; reflexivity).
  split; [split; [exact Hl|exact HN]|].
  exact (normalize_nonneg_same_solutions [[1]]%Q [-1]%Q [[-1]]%Q [1]%Q [-1]%Q Hl HN).
Defined.



Lemma phaseOne_tableau_shape_witness :
  (length [[1;2]]%Q = 1 /\ (forall r, In r [[1;2]]%Q -> length r = 2)) /\
  (nrows (phaseOneTableau0 1 2 [[1;2]]%Q [3]%Q) = 1 + 1 /\
   ncols (phaseOneTableau0 1 2 [[1;2]]%Q [3]%Q) = 2 + 1 + 1 /\
   rect (phaseOneTableau0 1 2 [[1;2]]%Q [3]%Q) /\
   forall k, k < 1 -> lastv (nth k (phaseOneTableau0 1 2 [[1;2]]%Q [3]%Q) []) = nth k [3]%Q nzero).
Proof.
  assert (Hl : length [[1;2]]%Q = 1) by reflexivity.
  assert (Hr : forall r, In r [[1;2]]%Q -> length r = 2)
    by (intros r [<-|[]]; reflexivity).
  split; [split; [exact Hl|exact Hr]|].
  exact (phaseOne_tableau_shape [[1;2]]%Q [3]%Q 1 2 Hl Hr).
Defined.

End ExtraWitnesses.
